(** * org-roam-web: the relationship and graph model

    A shallow embedding of the Go packages [db], [graph], [search], [config]
    and [render] of org-roam-web, followed by the properties of the graph
    projection, the ego-graph traversal, node filtering and the page view
    models.

    Conventions of the embedding.
    - A Go [string] is a [string] (a list of bytes), a slice is a [list]
      (a nil slice and an empty slice are both [[]]), [map[string]V] is a
      [gmap string V] read with Go's zero value on a missing key, and a
      [map[string]bool] that only ever stores [true] is a [gset string].
    - A Go [int] is a [Z].  The only arithmetic on [int] in this code is
      counting up by one from zero along a slice, so no value leaves the
      64-bit range.
    - The order in which [for k := range m] visits a Go map is left open by
      the language; a run is modelled with a [RangeOrder], any rearrangement
      of the entries.
    - [sort.Slice] is only promised to sort, not to be stable; a run is
      modelled with a [SliceSorter], any function with that contract.  The
      algorithm of Go's library is given in [gosort], as far as a slice of
      at most 13 elements takes it. *)

From Stdlib Require Import ZArith Lia Permutation Ascii String.
From stdpp Require Import gmap strings list fin_maps sorting.

Set Warnings "-clear-no-such-hyp".

Local Open Scope string_scope.
Local Open Scope list_scope.
Local Open Scope Z_scope.

(** ** Go runtime conventions *)

Module goruntime.

(** [m[k]] on a Go map: the stored value, or the zero value of the type. *)
Definition index {V} (zero : V) (m : gmap string V) (k : string) : V :=
  default zero (m !! k).

(** [m[k]++] on a [map[string]int]. *)
Definition incr (k : string) (m : gmap string Z) : gmap string Z :=
  <[k := index 0 m k + 1]> m.

(** One run's choice of iteration order for [range] over a map.  Every
    property below is proved for every such choice. *)
Record RangeOrder := {
  range_order :> ∀ A : Type, list A → list A;
  range_order_perm : ∀ A (l : list A), range_order A l ≡ₚ l
}.

Program Definition range_ascending : RangeOrder :=
  {| range_order := λ A l, l |}.
Next Obligation. done. Qed.

Program Definition range_descending : RangeOrder :=
  {| range_order := λ A l, reverse l |}.
Next Obligation. intros A l. apply reverse_Permutation. Qed.

(** [for k := range s] over a set held in a [map[string]bool]. *)
Definition range_set (ro : RangeOrder) (s : gset string) : list string :=
  ro _ (elements s).

(** [for k, v := range m]. *)
Definition range_map {V} (ro : RangeOrder) (m : gmap string V) : list (string * V) :=
  ro _ (map_to_list m).

(** *** Package sort *)

(** What [sort.Slice] asks of its [less]: a strict weak ordering, given here
    as asymmetry and negative transitivity. *)
Record strict_weak {A} (less : A → A → bool) : Prop := {
  less_asym : ∀ x y, less x y = true → less y x = false;
  less_negtrans : ∀ x y z, less y x = false → less z y = false → less z x = false
}.

(** [x] may stand before [y] in a slice sorted by [less]. *)
Definition not_after {A} (less : A → A → bool) : relation A :=
  λ x y, less y x = false.

(** One run's [sort.Slice]: the slice is rearranged so that no element is
    [less] than one standing before it.  The order among elements that
    compare equal is whatever the run leaves: the documentation of
    [sort.Slice] does not promise a stable sort. *)
Record SliceSorter := {
  sort_Slice :> ∀ A : Type, (A → A → bool) → list A → list A;
  sort_Slice_perm : ∀ A less (l : list A), sort_Slice A less l ≡ₚ l;
  sort_Slice_sorted : ∀ A less (l : list A),
    strict_weak less → StronglySorted (not_after less) (sort_Slice A less l)
}.

Global Instance not_after_dec {A} (less : A → A → bool) x y :
  Decision (not_after less x y).
Proof. unfold not_after. apply _. Defined.

(** One sorter with this contract. *)
Program Definition merge_sorter : SliceSorter :=
  {| sort_Slice := λ A less l, merge_sort (not_after less) l |}.
Next Obligation. intros A less l. apply merge_sort_Permutation. Qed.
Next Obligation.
  intros A less l [Hasym Hneg]. simpl.
  assert (Total (not_after less)) as Htotal.
  { intros x y. unfold not_after.
    destruct (less y x) eqn:E; [right; by apply Hasym | by left]. }
  assert (Transitive (not_after less)) as Htrans.
  { intros x y z. unfold not_after. apply Hneg. }
  apply (@StronglySorted_merge_sort _ _ _ Htrans Htotal).
Qed.

End goruntime.
Import goruntime.

(** ** Package sort: the algorithm behind sort.Slice

    [sort.Slice] runs [pdqsort_func] of Go's library on the slice, through
    [data.Less(i, j)] and [data.Swap(i, j)].  Up to 12 elements that is an
    insertion sort, which keeps elements that compare equal in their order;
    from 13 elements on the slice is partitioned first, and the swaps of the
    partition reorder equal elements. *)

Module gosort.
Local Open Scope nat_scope.

Inductive sortedHint := unknownHint | increasingHint | decreasingHint.

Section pdqsort.
Context {E : Type} (less : E → E → bool).

(** [data.Less(i, j)]: the [less] of the caller on the elements that stand
    at [i] and [j] now. *)
Definition Less (data : list E) (i j : nat) : bool :=
  match data !! i, data !! j with
  | Some x, Some y => less x y
  | _, _ => false
  end.

(** [data.Swap(i, j)] *)
Definition Swap (data : list E) (i j : nat) : list E :=
  match data !! i, data !! j with
  | Some x, Some y => <[j := x]> (<[i := y]> data)
  | _, _ => data
  end.

(** The inner loop of [insertionSort_func]:
    [for j := i; j > a && data.Less(j, j-1); j-- { data.Swap(j, j-1) }]. *)
Fixpoint insertion_shift (a j : nat) (data : list E) : list E :=
  match j with
  | O => data
  | S j' =>
      if (a <? S j') && Less data (S j') j'
      then insertion_shift a j' (Swap data (S j') j')
      else data
  end.

(** Its outer loop, [for i := a + 1; i < b; i++], with [steps] rounds left. *)
Fixpoint insertion_rounds (a steps i : nat) (data : list E) : list E :=
  match steps with
  | O => data
  | S steps' => insertion_rounds a steps' (S i) (insertion_shift a i data)
  end.

Definition insertionSort_func (data : list E) (a b : nat) : list E :=
  insertion_rounds a (b - (a + 1)) (a + 1) data.

Definition order2_func (data : list E) (a b swaps : nat) : nat * nat * nat :=
  if Less data b a then (b, a, S swaps) else (a, b, swaps).

Definition median_func (data : list E) (a b c swaps : nat) : nat * nat :=
  let '(a, b, swaps) := order2_func data a b swaps in
  let '(b, c, swaps) := order2_func data b c swaps in
  let '(a, b, swaps) := order2_func data a b swaps in
  (b, swaps).

(** [choosePivot_func] on fewer than 50 elements: the median of three.
    [None] on a longer range, where Go takes a median of medians. *)
Definition choosePivot_func (data : list E) (a b : nat) : option (nat * sortedHint) :=
  let l := b - a in
  let i := a + l / 4 * 1 in
  let j := a + l / 4 * 2 in
  let k := a + l / 4 * 3 in
  if 50 <=? l then None
  else
    let '(j, swaps) := if 8 <=? l then median_func data i j k 0 else (j, 0) in
    Some (j, match swaps with
             | 0 => increasingHint
             | 12 => decreasingHint
             | _ => unknownHint
             end).

(** [for i < b && !data.Less(i, i-1) { i++ }] *)
Fixpoint ordered_prefix (data : list E) (fuel i b : nat) : nat :=
  match fuel with
  | O => i
  | S fuel' =>
      if (i <? b) && negb (Less data i (i - 1))
      then ordered_prefix data fuel' (S i) b
      else i
  end.

(** [partialInsertionSort_func] on fewer than 50 elements, where it shifts
    nothing: it reports whether the range is in order already.  [None] on
    a longer range that is out of order. *)
Definition partialInsertionSort_func (data : list E) (a b : nat) : option bool :=
  let i := ordered_prefix data (b - a) (a + 1) b in
  if i =? b then Some true
  else if b - a <? 50 then Some false
  else None.

(** [for i <= j && data.Less(i, a) { i++ }] *)
Fixpoint skip_less (data : list E) (a fuel i j : nat) : nat :=
  match fuel with
  | O => i
  | S fuel' =>
      if (i <=? j) && Less data i a then skip_less data a fuel' (S i) j else i
  end.

(** [for i <= j && !data.Less(j, a) { j-- }] *)
Fixpoint skip_not_less (data : list E) (a fuel i j : nat) : nat :=
  match fuel with
  | O => j
  | S fuel' =>
      if (i <=? j) && negb (Less data j a) then skip_not_less data a fuel' i (j - 1) else j
  end.

(** The [for { ... }] of [partition_func], which ends with [i > j]. *)
Fixpoint partition_loop (data : list E) (a fuel i j : nat) : list E * nat :=
  match fuel with
  | O => (data, j)
  | S fuel' =>
      let i := skip_less data a (S j) i j in
      let j := skip_not_less data a (S j) i j in
      if j <? i then (data, j)
      else partition_loop (Swap data i j) a fuel' (S i) (j - 1)
  end.

Definition partition_func (data : list E) (a b pivot : nat) : list E * nat * bool :=
  let data := Swap data a pivot in
  let i := a + 1 in
  let j := b - 1 in
  let i := skip_less data a (b - a) i j in
  let j := skip_not_less data a (b - a) i j in
  if j <? i then (Swap data j a, j, true)
  else
    let data := Swap data i j in
    let '(data, j) := partition_loop data a (b - a) (S i) (j - 1) in
    (Swap data j a, j, false).

(** [pdqsort_func(data, a, b, limit)] on a range of at most 12 elements;
    [None] on a longer one. *)
Definition pdqsort_short (data : list E) (a b : nat) : option (list E) :=
  if b - a <=? 12 then Some (insertionSort_func data a b) else None.

(** [pdqsort_func(data, 0, n, bits.Len(n))], as [sort.Slice] calls it, for
    the runs that end after at most one partition.  Up to 12 elements are
    sorted by insertion.  On a longer slice the first round of the loop
    has [limit] above 0 and [wasBalanced] and [wasPartitioned] set, so that
    it goes by neither [heapSort_func] nor [breakPatterns_func], and [a] is
    0, so that it does not go by [partitionEqual_func]: the slice is left
    as it is when it is in order, and else partitioned around the median of
    three; the shorter side is sorted by the call of [pdqsort_func] on it
    and the other side by the next round of the loop.  [None] stands for
    a run that goes on into the parts of [pdqsort_func] left out here,
    which takes a side of more than 12 elements. *)
Definition pdqsort_func (data : list E) (n : nat) : option (list E) :=
  if n <=? 12 then Some (insertionSort_func data 0 n)
  else
    '(pivot, hint) ← choosePivot_func data 0 n;
    match hint with
    | decreasingHint => None
    | _ =>
        sorted ← match hint with
                 | increasingHint => partialInsertionSort_func data 0 n
                 | _ => Some false
                 end;
        if sorted : bool then Some data
        else
          let '(data, mid, _) := partition_func data 0 n pivot in
          let leftLen := mid - 0 in
          let rightLen := n - mid in
          if leftLen <? rightLen
          then data ← pdqsort_short data 0 mid; pdqsort_short data (mid + 1) n
          else data ← pdqsort_short data (mid + 1) n; pdqsort_short data 0 mid
    end.

End pdqsort.

(** [sort.Slice(x, less)] on such a run. *)
Definition Slice {E} (less : E → E → bool) (x : list E) : option (list E) :=
  pdqsort_func less x (length x).

End gosort.

(** The [sort.Slice] of Go's library on the runs that [gosort.Slice] covers
    and that end with the slice sorted; merge sort on the others. *)
Program Definition go_sorter : SliceSorter :=
  {| sort_Slice := λ A less l,
       match gosort.Slice less l with
       | Some out =>
           if decide (StronglySorted (not_after less) out) then out
           else merge_sort (not_after less) l
       | None => merge_sort (not_after less) l
       end |}.
Next Obligation.
  intros A less l. simpl.
  assert (Hswap : ∀ (d : list A) i j, gosort.Swap d i j ≡ₚ d).
  { intros d i j. unfold gosort.Swap.
    destruct (d !! i) eqn:Ei; [|done]. destruct (d !! j) eqn:Ej; [|done].
    by apply Permutation_insert_swap. }
  assert (Hshift : ∀ a j d, gosort.insertion_shift less a j d ≡ₚ d).
  { intros a j. induction j as [|j IH]; intros d; simpl; [done|].
    destruct (_ && _); [|done]. by rewrite IH. }
  assert (Hins : ∀ d a b, gosort.insertionSort_func less d a b ≡ₚ d).
  { intros d a b. unfold gosort.insertionSort_func.
    remember (b - (a + 1))%nat as steps eqn:Hsteps. clear Hsteps.
    generalize (a + 1)%nat as i. revert d.
    induction steps as [|steps IH]; intros d i; simpl; [done|].
    by rewrite IH, Hshift. }
  assert (Hloop : ∀ a fuel d i j, (gosort.partition_loop less d a fuel i j).1 ≡ₚ d).
  { intros a fuel. induction fuel as [|fuel IH]; intros d i j; [done|].
    cbn [gosort.partition_loop]. destruct (_ <? _)%nat; [done|]. by rewrite IH. }
  assert (Hpart : ∀ d a b p, (gosort.partition_func less d a b p).1.1 ≡ₚ d).
  { intros d a b p. unfold gosort.partition_func.
    destruct (_ <? _)%nat; simpl; [by rewrite !Hswap|].
    destruct (gosort.partition_loop _ _ _ _ _ _) as [d' j'] eqn:E. simpl.
    rewrite Hswap. change d' with (d', j').1. rewrite <- E, Hloop. by rewrite !Hswap. }
  assert (Hshort : ∀ d a b out, gosort.pdqsort_short less d a b = Some out → out ≡ₚ d).
  { intros d a b out. unfold gosort.pdqsort_short.
    destruct (_ <=? _)%nat; [|done]. intros [= <-]. apply Hins. }
  assert (Hsides : ∀ d a b a' b' out,
            gosort.pdqsort_short less d a b ≫= (λ d', gosort.pdqsort_short less d' a' b')
            = Some out → out ≡ₚ d).
  { intros d a b a' b' out.
    destruct (gosort.pdqsort_short less d a b) as [d'|] eqn:E; [|done]. simpl.
    intros ->%Hshort. by apply Hshort in E. }
  assert (Hround : ∀ pivot out,
            (let '(d, mid, _) := gosort.partition_func less l 0 (length l) pivot in
             if (mid - 0 <? length l - mid)%nat
             then gosort.pdqsort_short less d 0 mid
                  ≫= λ d', gosort.pdqsort_short less d' (mid + 1) (length l)
             else gosort.pdqsort_short less d (mid + 1) (length l)
                  ≫= λ d', gosort.pdqsort_short less d' 0 mid) = Some out →
            out ≡ₚ l).
  { intros pivot out.
    destruct (gosort.partition_func _ _ _ _ _) as [[d mid] b] eqn:E.
    assert (d ≡ₚ l) as Hd by (change d with (d, mid, b).1.1; rewrite <- E; apply Hpart).
    destruct (_ <? _)%nat; intros ->%Hsides; done. }
  assert (Hpdq : ∀ out, gosort.Slice less l = Some out → out ≡ₚ l).
  { intros out. unfold gosort.Slice, gosort.pdqsort_func.
    destruct (_ <=? 12)%nat; [intros [= <-]; apply Hins|].
    destruct (gosort.choosePivot_func _ _ _ _) as [[pivot hint]|]; [|done].
    cbn [mbind option_bind].
    destruct hint; [| |done].
    - cbn [mbind option_bind]. apply Hround.
    - destruct (gosort.partialInsertionSort_func _ _ _ _) as [[|]|];
        cbn [mbind option_bind]; [by intros [= <-] | apply Hround | done]. }
  destruct (gosort.Slice less l) as [out|] eqn:E; [|apply merge_sort_Permutation].
  case_decide; [by apply Hpdq | apply merge_sort_Permutation].
Qed.
Next Obligation.
  intros A less l [Hasym Hneg]. simpl.
  assert (StronglySorted (not_after less) (merge_sort (not_after less) l)) as Hmerge.
  { assert (Total (not_after less)) as Htotal.
    { intros x y. unfold not_after.
      destruct (less y x) eqn:E; [right; by apply Hasym | by left]. }
    assert (Transitive (not_after less)) as Htrans.
    { intros x y z. unfold not_after. apply Hneg. }
    apply (@StronglySorted_merge_sort _ _ _ Htrans Htotal). }
  destruct (gosort.Slice less l) as [out|]; [|done]. by case_decide.
Qed.

(** ** Package strings, as far as package db calls it *)

Module gostrings.

(** The double quote and the backslash, by their byte values. *)
Definition quote : ascii := ascii_of_nat 34.
Definition backslash : ascii := ascii_of_nat 92.

(** The bytes left after all leading bytes equal to [c] are dropped. *)
Fixpoint trim_left (c : ascii) (s : list ascii) : list ascii :=
  match s with
  | [] => []
  | x :: rest => if Ascii.eqb x c then trim_left c rest else s
  end.

(** [strings.Trim(s, cutset)] for a cutset of the single byte [c]: all
    leading and all trailing bytes equal to [c] are dropped. *)
Definition Trim (s : list ascii) (c : ascii) : list ascii :=
  reverse (trim_left c (reverse (trim_left c s))).

(** [strings.ReplaceAll(s, old, new)] for an [old] of the two bytes [a] and
    [b]: the occurrences are replaced from left to right, and the scan goes
    on behind each occurrence. *)
Fixpoint ReplaceAll (a b : ascii) (new : list ascii) (s : list ascii) : list ascii :=
  match s with
  | x :: ((y :: rest') as rest) =>
      if Ascii.eqb x a && Ascii.eqb y b then new ++ ReplaceAll a b new rest'
      else x :: ReplaceAll a b new rest
  | _ => s
  end.

End gostrings.

(** ** Package db *)

Module db.

Record Node := {
  ID : string;
  File : string;
  Level : Z;
  Pos : Z;
  Title : string;
  Tags : list string;
  Properties : gmap string string
}.

Record Link := {
  Source : string;
  Target : string;
  Type_ : string
}.

(** [trimQuotes]: the surrounding double quotes are removed. *)
Definition trimQuotes (s : string) : string :=
  string_of_list_ascii (gostrings.Trim (list_ascii_of_string s) gostrings.quote).

(** [cleanTitle]: the quotes are removed, then every pair of backslashes
    becomes one backslash. *)
Definition cleanTitle (s : string) : string :=
  let s := trimQuotes s in
  string_of_list_ascii
    (gostrings.ReplaceAll gostrings.backslash gostrings.backslash [gostrings.backslash]
       (list_ascii_of_string s)).

End db.

(** ** Package graph *)

Module graph.

Record GraphNode := {
  ID : string;
  Title : string;
  Tags : list string;
  LinkCount : Z
}.

Record GraphLink := {
  Source : string;
  Target : string
}.

Record Graph := {
  Nodes : list GraphNode;
  Links : list GraphLink
}.

(** [nodeSet[n.ID] = true] for every node. *)
Definition nodeSet_of (nodes : list db.Node) : gset string :=
  foldl (λ s n, {[db.ID n]} ∪ s) ∅ nodes.

(** Both endpoints of the link pass the membership test on [s]. *)
Definition both_in (s : gset string) (l : db.Link) : bool :=
  bool_decide (db.Source l ∈ s) && bool_decide (db.Target l ∈ s).

(** The counting loop: both endpoints are incremented for a link that passes
    the test, the source first. *)
Definition count_links (s : gset string) (links : list db.Link) : gmap string Z :=
  foldl (λ m l, if both_in s l then incr (db.Target l) (incr (db.Source l) m) else m)
        ∅ links.

(** The loop that appends a [GraphLink] for every link that passes the test. *)
Definition add_links (s : gset string) (links : list db.Link) : list GraphLink :=
  foldl (λ acc l,
           if both_in s l
           then acc ++ [{| Source := db.Source l; Target := db.Target l |}]
           else acc)
        [] links.

Definition BuildGraph (nodes : list db.Node) (links : list db.Link)
    (nodeTags : gmap string (list string)) : Graph :=
  let nodeSet := nodeSet_of nodes in
  let linkCount := count_links nodeSet links in
  let gnodes :=
    foldl (λ acc n,
             acc ++ [{| ID := db.ID n;
                        Title := db.Title n;
                        Tags := index [] nodeTags (db.ID n);
                        LinkCount := index 0 linkCount (db.ID n) |}])
          [] nodes in
  {| Nodes := gnodes; Links := add_links nodeSet links |}.

(** *** LocalGraph *)

(** [adjacency[l.Source] = append(adjacency[l.Source], l.Target)] and the
    mirrored update, for every link in order. *)
Definition adjacency_of (links : list db.Link) : gmap string (list string) :=
  foldl (λ adj l,
           let adj1 := <[db.Source l := index [] adj (db.Source l) ++ [db.Target l]]> adj in
           <[db.Target l := index [] adj1 (db.Target l) ++ [db.Source l]]> adj1)
        ∅ links.

(** The traversal state: the [visited] map and the FIFO [queue] of
    (id, depth) entries. *)
Record bfs_state := {
  visited : gset string;
  queue : list (string * Z)
}.

(** Body of the inner loop over [adjacency[curr.id]]. *)
Definition visit_neighbor (d : Z) (st : bfs_state) (neighbor : string) : bfs_state :=
  if bool_decide (neighbor ∈ visited st) then st
  else {| visited := {[neighbor]} ∪ visited st;
          queue := queue st ++ [(neighbor, d + 1)] |}.

(** Body of the outer loop, for a queue whose head [curr] has been taken off. *)
Definition bfs_body (adjacency : gmap string (list string)) (depth : Z)
    (curr : string * Z) (st : bfs_state) : bfs_state :=
  if bool_decide (curr.2 >= depth) then st
  else foldl (visit_neighbor curr.2) st (index [] adjacency curr.1).

(** [for len(queue) > 0 { ... }], run for at most [fuel] iterations. *)
Fixpoint bfs_loop (fuel : nat) (adjacency : gmap string (list string)) (depth : Z)
    (st : bfs_state) : bfs_state :=
  match fuel with
  | O => st
  | S fuel' =>
      match queue st with
      | [] => st
      | curr :: rest =>
          bfs_loop fuel' adjacency depth
            (bfs_body adjacency depth curr {| visited := visited st; queue := rest |})
      end
  end.

(** Every iteration takes one entry off the queue and an id is queued at most
    once, so the loop body runs at most once per id met: the focal id and the
    two ends of every link. *)
Definition bfs_fuel (links : list db.Link) : nat := S (2 * length links).

Definition bfs_init (nodeID : string) : bfs_state :=
  {| visited := {[nodeID]}; queue := [(nodeID, 0)] |}.

(** The state in which the traversal loop of [LocalGraph] is left. *)
Definition bfs_final (nodeID : string) (depth : Z) (links : list db.Link) : bfs_state :=
  bfs_loop (bfs_fuel links) (adjacency_of links) depth (bfs_init nodeID).

Definition bfs_visited (nodeID : string) (depth : Z) (links : list db.Link) : gset string :=
  visited (bfs_final nodeID depth links).

(** [nodeMap[n.ID] = n]; a later node with the same id replaces an earlier one. *)
Definition nodeMap_of (nodes : list db.Node) : gmap string db.Node :=
  foldl (λ m n, <[db.ID n := n]> m) ∅ nodes.

Definition LocalGraph (ro : RangeOrder) (nodeID : string) (depth : Z)
    (nodes : list db.Node) (links : list db.Link)
    (nodeTags : gmap string (list string)) : Graph :=
  let visited := bfs_visited nodeID depth links in
  let nodeMap := nodeMap_of nodes in
  let linkCount := count_links visited links in
  let gnodes :=
    foldl (λ acc id,
             match nodeMap !! id with
             | Some n =>
                 acc ++ [{| ID := db.ID n;
                            Title := db.Title n;
                            Tags := index [] nodeTags id;
                            LinkCount := index 0 linkCount id |}]
             | None => acc
             end)
          [] (range_set ro visited) in
  {| Nodes := gnodes; Links := add_links visited links |}.

End graph.

(** ** Package search *)

Module search.

Record SearchEntry := {
  ID : string;
  Title : string;
  Tags : list string
}.

Record SearchIndex := {
  Entries : list SearchEntry
}.

Definition BuildIndex (nodes : list db.Node) (nodeTags : gmap string (list string))
    : SearchIndex :=
  {| Entries :=
       foldl (λ acc n,
                acc ++ [{| ID := db.ID n;
                           Title := db.Title n;
                           Tags := index [] nodeTags (db.ID n) |}])
             [] nodes |}.

End search.

(** ** Package config *)

Module config.

Record SiteConfig := { Title : string; BaseURL : string }.
Record PathsConfig := { RoamDir : string; DBPath : string; OutputDir : string }.
Record ExcludeConfig := { Tags : list string; Files : list string; IDs : list string }.
Record DisplayConfig := { RecentCount : Z; LocalGraphDepth : Z }.

Record Config := {
  Site : SiteConfig;
  Paths : PathsConfig;
  Exclude : ExcludeConfig;
  Display : DisplayConfig
}.

Definition DefaultConfig : Config :=
  {| Site := {| Title := "My Notes"; BaseURL := "" |};
     Paths := {| RoamDir := "."; DBPath := "./roam.db"; OutputDir := "./dist" |};
     Exclude := {| Tags := ["private"; "draft"]; Files := []; IDs := [] |};
     Display := {| RecentCount := 20; LocalGraphDepth := 2 |} |}.

(** What [Load] reads from outside the program: the file system, the YAML
    decoder and the home directory. *)
Record Env := {
  error : Type;
  os_ReadFile : string → error + string;
  os_IsNotExist : error → bool;
  (** [yaml.Unmarshal(data, cfg)] decodes into a configuration that already
      holds the defaults. *)
  yaml_Unmarshal : string → Config → error + Config;
  os_UserHomeDir : error + string;
  filepath_Join : string → string → string
}.

Section Load.
Context (env : Env).

Definition expandPath (path : string) : string :=
  match path with
  | String "~"%char rest =>
      match os_UserHomeDir env with
      | inl _ => path
      | inr home => filepath_Join env home rest
      end
  | _ => path
  end.

(** The two results of [Load], a configuration and an error; [None] is [nil]. *)
Definition Load (path : string) : option Config * option (error env) :=
  let cfg := DefaultConfig in
  match os_ReadFile env path with
  | inl err =>
      if os_IsNotExist env err then (Some cfg, None) else (None, Some err)
  | inr data =>
      match yaml_Unmarshal env data cfg with
      | inl err => (None, Some err)
      | inr cfg =>
          let paths :=
            {| RoamDir := expandPath (RoamDir (Paths cfg));
               DBPath := expandPath (DBPath (Paths cfg));
               OutputDir := expandPath (OutputDir (Paths cfg)) |} in
          (Some {| Site := Site cfg; Paths := paths;
                   Exclude := Exclude cfg; Display := Display cfg |}, None)
      end
  end.
End Load.

End config.

(** ** The library functions that package render calls on file names *)

Module filepath.

Fixpoint drop_slashes (s : list ascii) : list ascii :=
  match s with
  | "/"%char :: rest => drop_slashes rest
  | _ => s
  end.

Fixpoint upto_slash (s : list ascii) : list ascii :=
  match s with
  | [] => []
  | c :: rest => if Ascii.eqb c "/" then [] else c :: upto_slash rest
  end.

(** [filepath.Base] with [/] as the separator: trailing slashes are dropped,
    the last element is kept; the empty path gives [.] and a path of slashes
    gives [/]. *)
Definition Base (path : string) : string :=
  if String.eqb path "" then "."
  else
    let last := upto_slash (drop_slashes (reverse (list_ascii_of_string path))) in
    match last with
    | [] => "/"
    | _ => string_of_list_ascii (reverse last)
    end.

End filepath.

Module gotime.

(** A [time.Time] as an instant: nanoseconds since January 1 of year 1,
    00:00:00 UTC, which is the zero [Time]. *)
Definition Time := Z.

Definition zero : Time := 0.

(** [t.After(u)] *)
Definition After (t u : Time) : bool := u <? t.

Definition isLeap (year : Z) : bool :=
  (year mod 4 =? 0) && (negb (year mod 100 =? 0) || (year mod 400 =? 0)).

Definition daysIn (month year : Z) : Z :=
  if month =? 2 then (if isLeap year then 29 else 28)
  else if (month =? 4) || (month =? 6) || (month =? 9) || (month =? 11) then 30
  else 31.

(** Days from January 1 of year 1 to January 1 of [year]. *)
Definition daysBeforeYear (year : Z) : Z :=
  let y := year - 1 in 365 * y + y / 4 - y / 100 + y / 400.

(** Days from January 1 of [year] to the first of [month], by adding up the
    months before it. *)
Definition daysBeforeMonth (month year : Z) : Z :=
  foldl (λ acc m, acc + daysIn m year) 0 (seqZ 1 (month - 1)).

(** [time.Date(year, month, day, hour, min, sec, 0, time.UTC)] for a date and
    a clock time that are in range. *)
Definition Date (year month day hour min sec : Z) : Time :=
  ((daysBeforeYear year + daysBeforeMonth month year + (day - 1)) * 86400
   + hour * 3600 + min * 60 + sec) * 1000000000.

Definition isDigit (c : ascii) : bool :=
  let n := Z.of_N (N_of_ascii c) in (48 <=? n) && (n <=? 57).

(** A run of decimal digits as a number; [None] when another byte is met. *)
Fixpoint atoi_from (acc : Z) (s : list ascii) : option Z :=
  match s with
  | [] => Some acc
  | c :: rest =>
      if isDigit c then atoi_from (10 * acc + (Z.of_N (N_of_ascii c) - 48)) rest
      else None
  end.

Definition atoi (s : list ascii) : option Z :=
  match s with [] => None | _ => atoi_from 0 s end.

(** [time.Parse] with the layout 20060102150405 on a value of
    fourteen bytes: a four-digit year and two digits each for month, day,
    hour, minute and second; the month, the day of that month, the hour, the
    minute and the second must be in range. *)
Definition Parse_20060102150405 (value : string) : option Time :=
  let v := list_ascii_of_string value in
  if bool_decide (length v = 14%nat) then
    year ← atoi (take 4 v);
    month ← atoi (take 2 (drop 4 v));
    day ← atoi (take 2 (drop 6 v));
    hour ← atoi (take 2 (drop 8 v));
    min ← atoi (take 2 (drop 10 v));
    sec ← atoi (take 2 (drop 12 v));
    if (1 <=? month) && (month <=? 12) && (hour <? 24) && (min <? 60) && (sec <? 60)
       && (1 <=? day) && (day <=? daysIn month year)
    then Some (Date year month day hour min sec)
    else None
  else None.

End gotime.

(** ** Package parser, as far as render reads its results *)

Module parser.

(** A table-of-contents entry is only handed on to the template. *)
Definition ToCEntry := string.

(** An identifier link found in a note body; render reads its [ID]. *)
Record Link := { ID : string }.

Record ParsedFile := {
  Title : string;
  Content : string;
  Links : list Link;
  ToC : list ToCEntry
}.

End parser.

(** ** Package render *)

Module render.

Module SiteData.
Record t := mk { Title : string; BaseURL : string }.
End SiteData.

Module LinkData.
Record t := mk { ID : string; Title : string }.
End LinkData.

Module NotePreview.
Record t := mk {
  ID : string;
  Title : string;
  Tags : list string;
  ModTime : gotime.Time
}.
End NotePreview.

Module NoteData.
Record t := mk {
  Site : SiteData.t;
  ID : string;
  Title : string;
  Tags : list string;
  Content : string;
  Links : list LinkData.t;
  Backlinks : list LinkData.t;
  LocalGraph : string;
  HasGraph : bool;
  ToC : list parser.ToCEntry;
  ModTime : gotime.Time
}.
End NoteData.

Module HomeData.
Record t := mk { Site : SiteData.t; RecentNotes : list NotePreview.t }.
End HomeData.

Module GraphPageData.
Record t := mk {
  Site : SiteData.t;
  GraphJSON : string;
  AllTags : list string;
  TopTags : list string
}.
End GraphPageData.

Module TagPageData.
Record t := mk { Site : SiteData.t; Tag : string; Notes : list NotePreview.t }.
End TagPageData.

(** The [data interface{}] argument of [renderPage]. *)
Inductive PageData :=
  | HomePage (d : HomeData.t)
  | NotePage (d : NoteData.t)
  | GraphPage (d : GraphPageData.t)
  | TagPage (d : TagPageData.t).

Record Renderer := {
  cfg : config.Config;
  nodes : list db.Node;
  links : list db.Link;
  nodeTags : gmap string (list string);
  nodeMap : gmap string string;
  backlinks : gmap string (list string)
}.

Definition NewRenderer (cfg : config.Config) : Renderer :=
  {| cfg := cfg; nodes := []; links := []; nodeTags := ∅; nodeMap := ∅; backlinks := ∅ |}.

(** What a build reads and calls outside this package: the note database,
    the parser, the JSON encoder, the template engine, the file system, and
    the run's choices for map iteration and for [sort.Slice]. *)
Record Env := {
  error : Type;
  errorf : string → error → error;
  db_Open : string → option error;
  db_LoadNodes : error + list db.Node;
  db_LoadTags : error + gmap string (list string);
  db_LoadLinks : error + list db.Link;
  ParseFile : string → error + parser.ParsedFile;
  Graph_ToJSON : graph.Graph → error + string;
  SearchIndex_ToJSON : search.SearchIndex → error + string;
  renderPage : string → string → PageData → option error;
  os_MkdirAll : string → option error;
  os_WriteFile : string → string → option error;
  (** [os.Stat(name)] followed by [ModTime()]; [None] when [Stat] fails. *)
  os_Stat_ModTime : string → option gotime.Time;
  copyImages : option error;
  filepath_Join : string → string → string;
  (** [filepath.Match(pattern, name)]: the match and the pattern error. *)
  filepath_Match : string → string → bool * option error;
  ro : RangeOrder;
  sorter : SliceSorter
}.

Section Render.
Context (env : Env).

(** *** filterNodes *)

(** The loop over the node's tags, left at the first excluded tag. *)
Fixpoint tag_loop (excludeTags : gset string) (tags : list string) : bool :=
  match tags with
  | [] => false
  | tag :: rest =>
      if bool_decide (tag ∈ excludeTags) then true else tag_loop excludeTags rest
  end.

(** The loop over the excluded file patterns, left at the first match; the
    error of [filepath.Match] is dropped. *)
Fixpoint file_loop (patterns : list string) (base : string) : bool :=
  match patterns with
  | [] => false
  | pattern :: rest =>
      if (filepath_Match env pattern base).1 then true else file_loop rest base
  end.

Definition set_of (l : list string) : gset string :=
  foldl (λ s x, {[x]} ∪ s) ∅ l.

Definition filterNodes (c : config.Config) (nodes : list db.Node)
    (nodeTags : gmap string (list string)) : list db.Node :=
  let excludeTags := set_of (config.Tags (config.Exclude c)) in
  let excludeIDs := set_of (config.IDs (config.Exclude c)) in
  foldl (λ filtered n,
           if bool_decide (db.ID n ∈ excludeIDs) then filtered
           else if tag_loop excludeTags (index [] nodeTags (db.ID n)) then filtered
           else if file_loop (config.Files (config.Exclude c)) (filepath.Base (db.File n))
                then filtered
           else filtered ++ [n])
        [] nodes.

(** *** loadData *)

Definition loadData (r : Renderer) : option (error env) * Renderer :=
  match db_Open env (config.DBPath (config.Paths (cfg r))) with
  | Some err => (Some (errorf env "failed to open database" err), r)
  | None =>
  match db_LoadNodes env with
  | inl err => (Some (errorf env "failed to load nodes" err), r)
  | inr nodes =>
  match db_LoadTags env with
  | inl err => (Some (errorf env "failed to load tags" err), r)
  | inr nodeTags =>
  match db_LoadLinks env with
  | inl err => (Some (errorf env "failed to load links" err), r)
  | inr links =>
      let filtered := filterNodes (cfg r) nodes nodeTags in
      (None,
       {| cfg := cfg r;
          nodes := filtered;
          links := links;
          nodeTags := nodeTags;
          nodeMap := foldl (λ m n, <[db.ID n := db.Title n]> m) (nodeMap r) filtered;
          backlinks :=
            foldl (λ m l, <[db.Target l := index [] m (db.Target l) ++ [db.Source l]]> m)
                  (backlinks r) links |})
  end end end end.

(** *** extractDateFromFilename *)

(** The submatch of the pattern [(\d{4})\.org$]: the four digits that
    stand right before a final [.org]. *)
Definition year_before_org (base : string) : option (list ascii) :=
  let b := list_ascii_of_string base in
  let n := length b in
  if bool_decide (8 ≤ n)%nat then
    let year := take 4 (drop (n - 8) b) in
    if bool_decide (drop (n - 4) b = list_ascii_of_string ".org") && forallb gotime.isDigit year
    then Some year else None
  else None.

Definition extractDateFromFilename (filename : string) : gotime.Time :=
  let base := filepath.Base filename in
  let parsed :=
    if bool_decide (14 ≤ String.length base)%nat
    then gotime.Parse_20060102150405 (substring 0 14 base)
    else None in
  match parsed with
  | Some t => t
  | None =>
      match year_before_org base with
      | Some digits => gotime.Date (default 0 (gotime.atoi digits)) 6 1 0 0 0
      | None =>
          match os_Stat_ModTime env filename with
          | Some t => t
          | None => gotime.zero
          end
      end
  end.

(** *** generateHome *)

(** The [less] handed to [sort.Slice]. *)
Definition newer (a b : db.Node) : bool :=
  gotime.After (extractDateFromFilename (db.File a)) (extractDateFromFilename (db.File b)).

Definition site (r : Renderer) : SiteData.t :=
  SiteData.mk (config.Title (config.Site (cfg r))) (config.BaseURL (config.Site (cfg r))).

Definition preview (r : Renderer) (n : db.Node) : NotePreview.t :=
  NotePreview.mk (db.ID n) (db.Title n) (index [] (nodeTags r) (db.ID n))
                 (extractDateFromFilename (db.File n)).

(** The recent notes of the home page.  [None] stands for the run-time
    panic of [make([]NotePreview, count)] on a negative [count]. *)
Definition recentNotes (r : Renderer) : option (list NotePreview.t) :=
  let sorted := sorter env _ newer (nodes r) in
  let count := config.RecentCount (config.Display (cfg r)) in
  let count := if bool_decide (count > Z.of_nat (length sorted))
               then Z.of_nat (length sorted) else count in
  if bool_decide (count < 0) then None
  else Some (preview r <$> take (Z.to_nat count) sorted).

Definition generateHome (r : Renderer) : option (option (error env)) :=
  notes ← recentNotes r;
  Some (renderPage env "home.html"
          (filepath_Join env (config.OutputDir (config.Paths (cfg r))) "index.html")
          (HomePage (HomeData.mk (site r) notes))).

(** *** generateNote *)

(** The loop over [parsed.Links]: a link is kept when its id has a title in
    [r.nodeMap]. *)
Definition note_links (r : Renderer) (parsed : parser.ParsedFile) : list LinkData.t :=
  foldl (λ links l,
           match nodeMap r !! parser.ID l with
           | Some title => links ++ [LinkData.mk (parser.ID l) title]
           | None => links
           end)
        [] (parser.Links parsed).

(** The loop over [r.backlinks[n.ID]]. *)
Definition note_backlinks (r : Renderer) (n : db.Node) : list LinkData.t :=
  foldl (λ backlinks sourceID,
           match nodeMap r !! sourceID with
           | Some title => backlinks ++ [LinkData.mk sourceID title]
           | None => backlinks
           end)
        [] (index [] (backlinks r) (db.ID n)).

Definition note_localGraph (r : Renderer) (n : db.Node) : graph.Graph :=
  graph.LocalGraph (ro env) (db.ID n)
    (config.LocalGraphDepth (config.Display (cfg r))) (nodes r) (links r) (nodeTags r).

(** The view model of a note page, once the file is parsed and the local
    graph is serialized. *)
Definition noteData (r : Renderer) (n : db.Node) (parsed : parser.ParsedFile)
    (localJSON : string) : NoteData.t :=
  {| NoteData.Site := site r;
     NoteData.ID := db.ID n;
     NoteData.Title := parser.Title parsed;
     NoteData.Tags := index [] (nodeTags r) (db.ID n);
     NoteData.Content := parser.Content parsed;
     NoteData.Links := note_links r parsed;
     NoteData.Backlinks := note_backlinks r n;
     NoteData.LocalGraph := localJSON;
     NoteData.HasGraph :=
       bool_decide (1 < length (graph.Nodes (note_localGraph r n)))%nat;
     NoteData.ToC := parser.ToC parsed;
     NoteData.ModTime := extractDateFromFilename (db.File n) |}.

Definition generateNote (r : Renderer) (n : db.Node) (notesDir : string)
    : option (error env) :=
  match ParseFile env (db.File n) with
  | inl err => Some err
  | inr parsed =>
      match Graph_ToJSON env (note_localGraph r n) with
      | inl err => Some (errorf env "failed to serialize local graph" err)
      | inr localJSON =>
          renderPage env "note.html"
            (filepath_Join env notesDir (db.ID n +:+ ".html"))
            (NotePage (noteData r n parsed localJSON))
      end
  end.

(** [generateNotes] returns the error of [MkdirAll] only; a note that fails
    is reported on standard output and the loop goes on.  The second
    component lists the notes reported, with their errors. *)
Definition generateNotes (r : Renderer)
    : option (error env) * list (db.Node * error env) :=
  let notesDir := filepath_Join env (config.OutputDir (config.Paths (cfg r))) "notes" in
  match os_MkdirAll env notesDir with
  | Some err => (Some (errorf env "failed to create notes directory" err), [])
  | None =>
      (None,
       foldl (λ warnings n,
                match generateNote r n notesDir with
                | Some err => warnings ++ [(n, err)]
                | None => warnings
                end)
             [] (nodes r))
  end.

(** *** generateGraph *)

(** [tagCounts[t]++] for every tag of every entry of [r.nodeTags]. *)
Definition tagCounts_of (r : Renderer) : gmap string Z :=
  foldl (λ counts kv, foldl (λ counts t, incr t counts) counts kv.2)
        ∅ (range_map (ro env) (nodeTags r)).

(** The [less] of the tag ranking: a larger count comes first. *)
Definition more_frequent (a b : string * Z) : bool := b.2 <? a.2.

Definition tagList_of (r : Renderer) : list (string * Z) :=
  sorter env _ more_frequent (range_map (ro env) (tagCounts_of r)).

Definition topTags (r : Renderer) : list string :=
  fst <$> take 10 (tagList_of r).

(** [sort.Strings] is [sort.Slice] with the byte-wise order of strings. *)
Definition allTags (r : Renderer) : list string :=
  sorter env _ String.ltb (fst <$> range_map (ro env) (tagCounts_of r)).

Definition generateGraph (r : Renderer) : option (error env) :=
  match Graph_ToJSON env (graph.BuildGraph (nodes r) (links r) (nodeTags r)) with
  | inl err => Some (errorf env "failed to serialize graph" err)
  | inr graphJSON =>
      renderPage env "graph.html"
        (filepath_Join env (config.OutputDir (config.Paths (cfg r))) "graph.html")
        (GraphPage (GraphPageData.mk (site r) graphJSON (allTags r) (topTags r)))
  end.

(** *** generateTags *)

Definition tagNotes_of (r : Renderer) : gmap string (list NotePreview.t) :=
  foldl (λ tagNotes n,
           let preview :=
             NotePreview.mk (db.ID n) (db.Title n) (index [] (nodeTags r) (db.ID n))
                            gotime.zero in
           foldl (λ tagNotes tag, <[tag := index [] tagNotes tag ++ [preview]]> tagNotes)
                 tagNotes (index [] (nodeTags r) (db.ID n)))
        ∅ (nodes r).

(** The loop over the tag pages, left at the first page that fails. *)
Fixpoint tag_pages (r : Renderer) (tagsDir : string)
    (pages : list (string * list NotePreview.t)) : option (error env) :=
  match pages with
  | [] => None
  | (tag, notes) :: rest =>
      match renderPage env "tag.html" (filepath_Join env tagsDir (tag +:+ ".html"))
              (TagPage (TagPageData.mk (site r) tag notes)) with
      | Some err => Some err
      | None => tag_pages r tagsDir rest
      end
  end.

Definition generateTags (r : Renderer) : option (error env) :=
  let tagsDir := filepath_Join env (config.OutputDir (config.Paths (cfg r))) "tags" in
  match os_MkdirAll env tagsDir with
  | Some err => Some (errorf env "failed to create tags directory" err)
  | None => tag_pages r tagsDir (range_map (ro env) (tagNotes_of r))
  end.

(** *** The two JSON artifacts *)

(** What [generateSearchIndex] serializes into search.json. *)
Definition search_artifact (r : Renderer) : search.SearchIndex :=
  search.BuildIndex (nodes r) (nodeTags r).

(** What [generateGraphJSON] serializes into graph.json. *)
Definition graph_artifact (r : Renderer) : graph.Graph :=
  graph.BuildGraph (nodes r) (links r) (nodeTags r).

Definition generateSearchIndex (r : Renderer) : option (error env) :=
  match SearchIndex_ToJSON env (search_artifact r) with
  | inl err => Some err
  | inr data =>
      os_WriteFile env
        (filepath_Join env (config.OutputDir (config.Paths (cfg r))) "search.json") data
  end.

Definition generateGraphJSON (r : Renderer) : option (error env) :=
  match Graph_ToJSON env (graph_artifact r) with
  | inl err => Some err
  | inr data =>
      os_WriteFile env
        (filepath_Join env (config.OutputDir (config.Paths (cfg r))) "graph.json") data
  end.

(** *** Build *)

(** The steps of a build in order, left at the first error.  The outer
    [None] is the panic that [generateHome] can end in. *)
Definition Build (r : Renderer) : option (option (error env)) :=
  match loadData r with
  | (Some err, _) => Some (Some err)
  | (None, r) =>
  match os_MkdirAll env (config.OutputDir (config.Paths (cfg r))) with
  | Some err => Some (Some (errorf env "failed to create output directory" err))
  | None =>
  home ← generateHome r;
  match home with Some err => Some (Some err) | None =>
  match (generateNotes r).1 with Some err => Some (Some err) | None =>
  match generateGraph r with Some err => Some (Some err) | None =>
  match generateTags r with Some err => Some (Some err) | None =>
  match copyImages env with Some err => Some (Some err) | None =>
  match generateSearchIndex r with Some err => Some (Some err) | None =>
  Some (generateGraphJSON r)
  end end end end end end end end.
End Render.

End render.

(** ** What the specification says, in its own terms *)

Module spec.

(** The edge a link stands for in an emitted graph. *)
Definition edge_of (l : db.Link) : graph.GraphLink :=
  {| graph.Source := db.Source l; graph.Target := db.Target l |}.

(** A link qualifies for a graph when both its ends are ids of that graph's
    node list. *)
Definition qualifying (ids : list string) (l : db.Link) : Prop :=
  db.Source l ∈ ids ∧ db.Target l ∈ ids.

Global Instance qualifying_dec ids l : Decision (qualifying ids l).
Proof. unfold qualifying. apply _. Defined.

Definition qualifying_edges (nodes : list db.Node) (links : list db.Link)
    : list graph.GraphLink :=
  edge_of <$> filter (qualifying (db.ID <$> nodes)) links.

(** The number of edges in which [id] is the source plus the number in which
    it is the target. *)
Definition degree (edges : list graph.GraphLink) (id : string) : Z :=
  Z.of_nat (length (filter (λ e, graph.Source e = id) edges))
  + Z.of_nat (length (filter (λ e, graph.Target e = id) edges)).

(** No dangling edge: both ends of every edge are ids of the graph's nodes. *)
Definition edges_closed (g : graph.Graph) : Prop :=
  ∀ e, e ∈ graph.Links g →
       graph.Source e ∈ graph.ID <$> graph.Nodes g
       ∧ graph.Target e ∈ graph.ID <$> graph.Nodes g.

(** [u] and [w] are the two ends of some link, in either direction. *)
Definition linked (links : list db.Link) (u w : string) : Prop :=
  ∃ l, l ∈ links ∧ ((db.Source l = u ∧ db.Target l = w)
                    ∨ (db.Source l = w ∧ db.Target l = u)).

(** [hops links focal n v]: [v] is reached from [focal] in [n] undirected
    steps along links. *)
Inductive hops (links : list db.Link) (focal : string) : nat → string → Prop :=
  | hops_here : hops links focal 0 focal
  | hops_step n u w :
      hops links focal n u → linked links u w → hops links focal (S n) w.

(** The hop distance of [v] from [focal] is at most [D]. *)
Definition within (links : list db.Link) (focal : string) (D : Z) (v : string) : Prop :=
  ∃ n, Z.of_nat n ≤ D ∧ hops links focal n v.

End spec.

(** ** Node filtering, in the terms of the specification *)

Module filter_spec.

(** A node is excluded when its id is an excluded id, or one of its tags is
    an excluded tag, or the base name of its file matches an excluded
    pattern. *)
Definition excluded (env : render.Env) (c : config.Config)
    (nodeTags : gmap string (list string)) (n : db.Node) : Prop :=
  db.ID n ∈ config.IDs (config.Exclude c)
  ∨ Exists (λ t, t ∈ config.Tags (config.Exclude c)) (index [] nodeTags (db.ID n))
  ∨ Exists (λ p, (render.filepath_Match env p (filepath.Base (db.File n))).1 = true)
           (config.Files (config.Exclude c)).

Global Instance excluded_dec env c nodeTags n : Decision (excluded env c nodeTags n).
Proof. unfold excluded. apply _. Defined.

End filter_spec.

(** ** The home page, in the terms of the specification *)

Module home_spec.

(** The effective date of a note. *)
Definition date (env : render.Env) (n : db.Node) : gotime.Time :=
  render.extractDateFromFilename env (db.File n).

(** [a] may be listed before [b]: it is not older. *)
Definition not_older (env : render.Env) (a b : db.Node) : Prop :=
  date env b ≤ date env a.

End home_spec.

(** ** The tag lists, in the terms of the specification *)

Module tag_spec.

(** Every tag occurrence of the tag map, entry by entry. *)
Definition all_tags (nodeTags : gmap string (list string)) : list string :=
  map_to_list nodeTags ≫= snd.

(** How often [t] occurs in a list of tags. *)
Definition count_in (l : list string) (t : string) : Z :=
  Z.of_nat (length (filter (λ x, x = t) l)).

(** The occurrence count of a tag over the whole tag map. *)
Definition occurrences (nodeTags : gmap string (list string)) (t : string) : Z :=
  count_in (all_tags nodeTags) t.

(** [m] holds, for the tags that occur, their count by [f], and nothing
    else. *)
Definition tally (m : gmap string Z) (f : string → Z) : Prop :=
  ∀ t, m !! t = if decide (0 < f t) then Some (f t) else None.

End tag_spec.

(** ** Notions used to reason about the traversal *)

Module traversal.

(** One step of the loop that fills the adjacency map. *)
Definition adj_step (adj : gmap string (list string)) (l : db.Link)
    : gmap string (list string) :=
  let adj1 := <[db.Source l := index [] adj (db.Source l) ++ [db.Target l]]> adj in
  <[db.Target l := index [] adj1 (db.Target l) ++ [db.Source l]]> adj1.

(** The neighbours that the inner loop queues: those not yet visited, each
    at its first occurrence. *)
Fixpoint unseen (V : gset string) (ns : list string) : list string :=
  match ns with
  | [] => []
  | w :: ns => if bool_decide (w ∈ V) then unseen V ns else w :: unseen ({[w]} ∪ V) ns
  end.

(** The two ends of every link. *)
Definition endpoints (links : list db.Link) : list string :=
  links ≫= λ l, [db.Source l; db.Target l].

(** Entries still queued plus ids of [U] not yet visited. *)
Definition potential (U : gset string) (st : graph.bfs_state) : nat :=
  (length (graph.queue st) + size (U ∖ graph.visited st))%nat.

(** The loop invariant.  [done] lists the entries already taken off the
    queue.  The queue holds entries of depth [k] followed by entries of depth
    [k + 1], and nothing taken off so far is deeper than [k]. *)
Record bfs_inv (links : list db.Link) (focal : string) (D : Z)
    (done : list (string * Z)) (st : graph.bfs_state) (k : Z) : Prop := {
  inv_visited : ∀ v, v ∈ graph.visited st ↔ ∃ d, (v, d) ∈ done ++ graph.queue st;
  inv_sound : ∀ v d, (v, d) ∈ done ++ graph.queue st →
                     0 ≤ d ≤ D ∧ spec.hops links focal (Z.to_nat d) v;
  inv_focal : (focal, 0) ∈ done ++ graph.queue st;
  inv_done : ∀ v d, (v, d) ∈ done → d ≤ k;
  inv_levels : ∃ qa qb, graph.queue st = qa ++ qb
                        ∧ (∀ v d, (v, d) ∈ qa → d = k)
                        ∧ (∀ v d, (v, d) ∈ qb → d = k + 1);
  inv_closed : ∀ u d w, (u, d) ∈ done → d < D → spec.linked links u w →
                        ∃ d', (w, d') ∈ done ++ graph.queue st ∧ d' ≤ d + 1
}.

End traversal.

(** ** Sample data and environments *)

Definition mkNode (id file title : string) : db.Node :=
  {| db.ID := id; db.File := file; db.Level := 0; db.Pos := 0; db.Title := title;
     db.Tags := []; db.Properties := ∅ |}.

Definition mkLink (s t : string) : db.Link :=
  {| db.Source := s; db.Target := t; db.Type_ := "id" |}.

(** The links A→B and B→C. *)
Definition chain_ABC : list db.Link := [mkLink "A" "B"; mkLink "B" "C"].

Definition sample_config_env : config.Env :=
  {| config.error := string;
     config.os_ReadFile := λ path,
       if String.eqb path "config.yaml" then inr "site: {}"
       else if String.eqb path "locked.yaml" then inl "EACCES" else inl "ENOENT";
     config.os_IsNotExist := λ err, String.eqb err "ENOENT";
     config.yaml_Unmarshal := λ data c, inr c;
     config.os_UserHomeDir := inr "/home/u";
     config.filepath_Join := λ a b, a +:+ "/" +:+ b |}.

(** An environment in which every note parses to a body with links to B and
    to Z, and every page renders. *)
Definition sample_env (ro : RangeOrder) (sorter : SliceSorter) : render.Env :=
  {| render.error := string;
     render.errorf := λ msg err, msg +:+ ": " +:+ err;
     render.db_Open := λ _, None;
     render.db_LoadNodes := inr [];
     render.db_LoadTags := inr ∅;
     render.db_LoadLinks := inr [];
     render.ParseFile := λ file,
       inr {| parser.Title := file; parser.Content := "";
              parser.Links := [{| parser.ID := "B" |}; {| parser.ID := "Z" |}];
              parser.ToC := [] |};
     render.Graph_ToJSON := λ _, inr "{}";
     render.SearchIndex_ToJSON := λ _, inr "{}";
     render.renderPage := λ _ _ _, None;
     render.os_MkdirAll := λ _, None;
     render.os_WriteFile := λ _ _, None;
     render.os_Stat_ModTime := λ _, None;
     render.copyImages := None;
     render.filepath_Join := λ a b, a +:+ "/" +:+ b;
     render.filepath_Match := λ pattern name, (String.eqb pattern name, None);
     render.ro := ro;
     render.sorter := sorter |}.

(** A renderer state with the given published nodes, links and tags. *)
Definition sample_renderer (c : config.Config) (nodes : list db.Node)
    (links : list db.Link) (nodeTags : gmap string (list string)) : render.Renderer :=
  {| render.cfg := c; render.nodes := nodes; render.links := links;
     render.nodeTags := nodeTags;
     render.nodeMap := foldl (λ m n, <[db.ID n := db.Title n]> m) ∅ nodes;
     render.backlinks :=
       foldl (λ m l, <[db.Target l := index [] m (db.Target l) ++ [db.Source l]]> m)
             ∅ links |}.

(** Twelve reading notes of the year 2024 and one note with a time stamp,
    in the order of the database query, which is by file name, descending. *)
Definition reading_notes : list db.Node :=
  (λ k, mkNode k ("/roam/refs/" +:+ k +:+ "2024.org") k)
  <$> ["l"; "k"; "j"; "i"; "h"; "g"; "f"; "e"; "d"; "c"; "b"; "a"].

Definition thirteen_notes : list db.Node :=
  reading_notes ++ [mkNode "new" "/roam/notes/20250101000000-new.org" "new"].

(** An environment in which the page of the tag a cannot be written. *)
Definition tag_a_fails_env : render.Env :=
  {| render.error := string;
     render.errorf := λ msg err, msg +:+ ": " +:+ err;
     render.db_Open := λ _, None;
     render.db_LoadNodes := inr [];
     render.db_LoadTags := inr ∅;
     render.db_LoadLinks := inr [];
     render.ParseFile := λ _, inl "no such file";
     render.Graph_ToJSON := λ _, inr "{}";
     render.SearchIndex_ToJSON := λ _, inr "{}";
     render.renderPage := λ _ outPath _,
       if String.eqb outPath "./dist/tags/a.html" then Some "disk full" else None;
     render.os_MkdirAll := λ _, None;
     render.os_WriteFile := λ _ _, None;
     render.os_Stat_ModTime := λ _, None;
     render.copyImages := None;
     render.filepath_Join := λ a b, a +:+ "/" +:+ b;
     render.filepath_Match := λ pattern name, (String.eqb pattern name, None);
     render.ro := range_ascending;
     render.sorter := merge_sorter |}.

(** An environment whose database cannot be opened. *)
Definition offline_env : render.Env :=
  {| render.error := string;
     render.errorf := λ msg err, msg +:+ ": " +:+ err;
     render.db_Open := λ _, Some "unable to open database file";
     render.db_LoadNodes := inr [];
     render.db_LoadTags := inr ∅;
     render.db_LoadLinks := inr [];
     render.ParseFile := λ _, inl "no such file";
     render.Graph_ToJSON := λ _, inr "{}";
     render.SearchIndex_ToJSON := λ _, inr "{}";
     render.renderPage := λ _ _ _, None;
     render.os_MkdirAll := λ _, None;
     render.os_WriteFile := λ _ _, None;
     render.os_Stat_ModTime := λ _, None;
     render.copyImages := None;
     render.filepath_Join := λ a b, a +:+ "/" +:+ b;
     render.filepath_Match := λ pattern name, (String.eqb pattern name, None);
     render.ro := range_ascending;
     render.sorter := merge_sorter |}.

(** A database with the notes A, B and C, where C is a draft, and links from
    B and from C to A. *)
Definition three_notes_env : render.Env :=
  {| render.error := string;
     render.errorf := λ msg err, msg +:+ ": " +:+ err;
     render.db_Open := λ _, None;
     render.db_LoadNodes :=
       inr [mkNode "A" "a.org" "Note A"; mkNode "B" "b.org" "Note B";
            mkNode "C" "c.org" "Note C"];
     render.db_LoadTags := inr {[ "C" := ["draft"] ]};
     render.db_LoadLinks := inr [mkLink "C" "A"; mkLink "B" "A"];
     render.ParseFile := λ file,
       if String.eqb file "b.org" then inl "b.org: parse error"
       else inr {| parser.Title := file; parser.Content := "";
                   parser.Links := []; parser.ToC := [] |};
     render.Graph_ToJSON := λ _, inr "{}";
     render.SearchIndex_ToJSON := λ _, inr "{}";
     render.renderPage := λ _ _ _, None;
     render.os_MkdirAll := λ _, None;
     render.os_WriteFile := λ _ _, None;
     render.os_Stat_ModTime := λ _, None;
     render.copyImages := None;
     render.filepath_Join := λ a b, a +:+ "/" +:+ b;
     render.filepath_Match := λ pattern name, (String.eqb pattern name, None);
     render.ro := range_ascending;
     render.sorter := merge_sorter |}.

Definition three_notes_renderer : render.Renderer :=
  (render.loadData three_notes_env (render.NewRenderer config.DefaultConfig)).2.

(** ** Tag pages *)

(** The preview that [generateTags] files under the tags of a node. *)
Definition tag_preview (r : render.Renderer) (n : db.Node) : render.NotePreview.t :=
  render.NotePreview.mk (db.ID n) (db.Title n) (index [] (render.nodeTags r) (db.ID n))
                        gotime.zero.

(** ** Totals over a graph *)

Module graph_spec.

(** The sum of the [linkCount] fields of a graph's nodes. *)
Definition total_linkCount (g : graph.Graph) : Z :=
  foldr Z.add 0 (graph.LinkCount <$> graph.Nodes g).

End graph_spec.

(** ** How the note database writes a string *)

Module elisp.

(** Every backslash is doubled. *)
Definition escape_backslashes (t : list ascii) : list ascii :=
  t ≫= λ x, if Ascii.eqb x gostrings.backslash then [x; x] else [x].

(** A string that holds no double quote, as the database stores it: between
    double quotes, with its backslashes doubled. *)
Definition printed (t : list ascii) : string :=
  string_of_list_ascii (gostrings.quote :: escape_backslashes t ++ [gostrings.quote]).

End elisp.

(** * Properties *)

(** ** Loops that append to a slice or fill a map *)

Section fold_lemmas.
Context {A B : Type}.

Lemma foldl_append (step : list B → A → list B) (g : A → list B) :
  (∀ acc x, step acc x = acc ++ g x) →
  ∀ l init, foldl step init l = init ++ (l ≫= g).
Proof.
  intros Hstep l. induction l as [|x l IH]; intros init; simpl.
  - by rewrite app_nil_r.
  - rewrite IH, Hstep. by rewrite <- app_assoc.
Qed.

Lemma foldl_snoc_fmap (f : A → B) (l : list A) (init : list B) :
  foldl (λ acc x, acc ++ [f x]) init l = init ++ (f <$> l).
Proof.
  by rewrite (foldl_append _ (λ x, [f x])).
Qed.

Lemma foldl_snoc_filter (p : A → bool) (f : A → B) (l : list A) (init : list B) :
  foldl (λ acc x, if p x then acc ++ [f x] else acc) init l
  = init ++ (f <$> filter (λ x, p x = true) l).
Proof.
  rewrite (foldl_append _ (λ x, if p x then [f x] else [])).
  - f_equal. induction l as [|x l IH]; simpl; [done|].
    rewrite filter_cons. destruct (p x) eqn:E.
    + rewrite decide_True by done. rewrite fmap_cons, <- IH. done.
    + rewrite decide_False by congruence. done.
  - intros acc x. destruct (p x); [done | by rewrite app_nil_r].
Qed.

Lemma foldl_snoc_omap (f : A → option B) (l : list A) (init : list B) :
  foldl (λ acc x, match f x with Some y => acc ++ [y] | None => acc end) init l
  = init ++ omap f l.
Proof.
  rewrite (foldl_append _ (λ x, match f x with Some y => [y] | None => [] end)).
  - f_equal. induction l as [|x l IH]; simpl; [done|].
    destruct (f x); simpl; [f_equal|]; apply IH.
  - intros acc x. destruct (f x); [done | by rewrite app_nil_r].
Qed.
End fold_lemmas.

Lemma filter_none {A} (P : A → Prop) `{!∀ x, Decision (P x)} (l : list A) :
  (∀ x, x ∈ l → ¬ P x) → filter P l = [].
Proof.
  induction l as [|x l IH]; intros Hno; [done|].
  rewrite filter_cons, decide_False by (apply Hno; by left).
  apply IH. intros y Hy. apply Hno. by right.
Qed.

Lemma foldl_union_singletons {A} (f : A → string) (l : list A) (s : gset string) :
  foldl (λ s x, {[f x]} ∪ s) s l = list_to_set (f <$> l) ∪ s.
Proof.
  revert s. induction l as [|x l IH]; intros s; simpl.
  - set_solver.
  - rewrite IH. set_solver.
Qed.

Lemma index_incr (k k' : string) (m : gmap string Z) :
  index 0 (incr k' m) k = index 0 m k + (if decide (k' = k) then 1 else 0).
Proof.
  unfold incr, index. rewrite lookup_insert.
  destruct (decide (k' = k)) as [->|]; simpl; lia.
Qed.

(** ** The global projection *)

Section build_graph.
Implicit Types (nodes : list db.Node) (links : list db.Link)
               (nodeTags : gmap string (list string)).

Lemma elem_of_nodeSet_of nodes id :
  id ∈ graph.nodeSet_of nodes ↔ id ∈ db.ID <$> nodes.
Proof.
  unfold graph.nodeSet_of. rewrite foldl_union_singletons. set_solver.
Qed.

Lemma both_in_true (s : gset string) l :
  graph.both_in s l = true ↔ db.Source l ∈ s ∧ db.Target l ∈ s.
Proof.
  unfold graph.both_in. rewrite andb_true_iff, !bool_decide_eq_true. done.
Qed.

Lemma add_links_filter (s : gset string) links :
  graph.add_links s links
  = spec.edge_of <$> filter (λ l, graph.both_in s l = true) links.
Proof. unfold graph.add_links. by rewrite foldl_snoc_filter. Qed.

Lemma BuildGraph_Links nodes links nodeTags :
  graph.Links (graph.BuildGraph nodes links nodeTags) = spec.qualifying_edges nodes links.
Proof.
  unfold graph.BuildGraph, spec.qualifying_edges. simpl.
  rewrite add_links_filter. f_equal. apply list_filter_iff. intros l.
  rewrite both_in_true, !elem_of_nodeSet_of. done.
Qed.

Lemma BuildGraph_Nodes nodes links nodeTags :
  graph.Nodes (graph.BuildGraph nodes links nodeTags)
  = (λ n, {| graph.ID := db.ID n;
             graph.Title := db.Title n;
             graph.Tags := index [] nodeTags (db.ID n);
             graph.LinkCount :=
               index 0 (graph.count_links (graph.nodeSet_of nodes) links) (db.ID n) |})
    <$> nodes.
Proof. unfold graph.BuildGraph. simpl. by rewrite foldl_snoc_fmap. Qed.

Lemma BuildGraph_node_ids nodes links nodeTags :
  graph.ID <$> graph.Nodes (graph.BuildGraph nodes links nodeTags) = db.ID <$> nodes.
Proof. rewrite BuildGraph_Nodes, <- list_fmap_compose. done. Qed.

(** The counting loop adds, to what the map held for [k], the number of
    passing links that start at [k] and the number that end at [k]. *)
Lemma count_links_from (s : gset string) links (m : gmap string Z) k :
  index 0 (foldl (λ m l, if graph.both_in s l
                         then incr (db.Target l) (incr (db.Source l) m) else m)
                 m links) k
  = index 0 m k
    + spec.degree (spec.edge_of <$> filter (λ l, graph.both_in s l = true) links) k.
Proof.
  revert m. induction links as [|l links IH]; intros m; simpl.
  - unfold spec.degree. simpl. lia.
  - rewrite IH. rewrite filter_cons. destruct (graph.both_in s l) eqn:E.
    + rewrite decide_True by done. rewrite !index_incr.
      unfold spec.degree. rewrite fmap_cons, !filter_cons. simpl.
      repeat case_decide; simpl; try congruence; lia.
    + rewrite decide_False by congruence. done.
Qed.

Lemma count_links_degree (s : gset string) links k :
  index 0 (graph.count_links s links) k = spec.degree (graph.add_links s links) k.
Proof.
  unfold graph.count_links. rewrite count_links_from, add_links_filter.
  unfold index. rewrite lookup_empty. simpl. lia.
Qed.
End build_graph.

(** ** The ego-graph traversal *)

Section adjacency.
Import traversal.
Implicit Types (links : list db.Link) (adj : gmap string (list string)).

Lemma elem_of_adj_step adj l u w :
  w ∈ index [] (adj_step adj l) u
  ↔ w ∈ index [] adj u
    ∨ (db.Source l = u ∧ db.Target l = w) ∨ (db.Source l = w ∧ db.Target l = u).
Proof.
  unfold adj_step, index. cbn zeta.
  rewrite !lookup_insert.
  repeat case_decide; simpl;
    rewrite ?elem_of_app, ?list_elem_of_singleton; naive_solver congruence.
Qed.

Lemma elem_of_adjacency_from links adj u w :
  w ∈ index [] (foldl adj_step adj links) u ↔ w ∈ index [] adj u ∨ spec.linked links u w.
Proof.
  revert adj. induction links as [|l links IH]; intros adj; simpl.
  - unfold spec.linked. set_solver.
  - rewrite IH, elem_of_adj_step. unfold spec.linked. split.
    + intros [[H|H]|(l' & Hin & H)]; [by left| |].
      * right. exists l. split; [left|]; done.
      * right. exists l'. split; [by right | done].
    + intros [H|(l' & Hin & H)]; [by left; left|].
      apply elem_of_cons in Hin as [->|Hin]; [by left; right|].
      right. by exists l'.
Qed.

(** The adjacency map lists, for [u], the other end of every link at [u]. *)
Lemma elem_of_adjacency links u w :
  w ∈ index [] (graph.adjacency_of links) u ↔ spec.linked links u w.
Proof.
  unfold graph.adjacency_of. change (foldl _ ∅ links) with (foldl adj_step ∅ links).
  rewrite elem_of_adjacency_from. unfold index at 1. rewrite lookup_empty. simpl.
  set_solver.
Qed.
End adjacency.

Section bfs_traversal.
Import graph traversal.

Lemma elem_of_unseen V ns w : w ∈ unseen V ns ↔ w ∈ ns ∧ w ∉ V.
Proof.
  revert V. induction ns as [|x ns IH]; intros V; simpl.
  - set_solver.
  - case_bool_decide as Hx.
    + rewrite IH. set_solver.
    + rewrite !elem_of_cons, IH. destruct (decide (w = x)); set_solver.
Qed.

Lemma foldl_visit_neighbor d st ns :
  foldl (visit_neighbor d) st ns
  = {| visited := list_to_set ns ∪ visited st;
       queue := queue st ++ ((λ w, (w, d + 1)) <$> unseen (visited st) ns) |}.
Proof.
  revert st. induction ns as [|w ns IH]; intros [V q]; simpl.
  - f_equal; [set_solver | by rewrite app_nil_r].
  - rewrite IH. unfold visit_neighbor. simpl. case_bool_decide as Hw; simpl.
    + f_equal. set_solver.
    + f_equal; [set_solver|]. by rewrite <- app_assoc.
Qed.

(** *** The loop ends within its fuel *)

Lemma linked_endpoint links u w : spec.linked links u w → w ∈ endpoints links.
Proof.
  intros (l & Hin & H). unfold endpoints. apply list_elem_of_bind.
  exists l. split; [set_solver | done].
Qed.

Lemma length_endpoints links : length (endpoints links) = (2 * length links)%nat.
Proof.
  unfold endpoints. induction links as [|l links IH]; [done|].
  csimpl. rewrite IH. lia.
Qed.

Lemma size_list_to_set_le (l : list string) :
  (size (list_to_set l : gset string) ≤ length l)%nat.
Proof.
  induction l as [|x l IH].
  - rewrite list_to_set_nil, size_empty. done.
  - rewrite list_to_set_cons, size_union_alt.
    rewrite size_singleton.
    assert (list_to_set l ∖ {[x]} ⊆ (list_to_set l : gset string)) as Hsub by set_solver.
    apply subseteq_size in Hsub. simpl. lia.
Qed.

Lemma potential_visit_neighbor U d st w :
  w ∈ U → potential U (visit_neighbor d st w) = potential U st.
Proof.
  intros Hw. unfold visit_neighbor, potential. case_bool_decide as Hv; [done|]. simpl.
  rewrite length_app. simpl.
  assert (U ∖ visited st = {[w]} ∪ U ∖ ({[w]} ∪ visited st)) as ->.
  { apply set_eq. intros x. destruct (decide (x = w)); set_solver. }
  rewrite (size_union (C:=gset string) {[w]} (U ∖ ({[w]} ∪ visited st))) by set_solver.
  rewrite size_singleton. lia.
Qed.

Lemma potential_foldl U d ns st :
  (∀ w, w ∈ ns → w ∈ U) →
  potential U (foldl (visit_neighbor d) st ns) = potential U st.
Proof.
  revert st. induction ns as [|w ns IH]; intros st Hns; simpl; [done|].
  rewrite IH by set_solver. apply potential_visit_neighbor. set_solver.
Qed.

Lemma potential_body links U depth curr st :
  list_to_set (endpoints links) ⊆ U →
  potential U (bfs_body (adjacency_of links) depth curr st) = potential U st.
Proof.
  intros HU. unfold bfs_body. case_bool_decide; [done|].
  apply potential_foldl. intros w Hw.
  apply elem_of_adjacency, linked_endpoint in Hw. set_solver.
Qed.

(** The loop is left with an empty queue when the fuel covers the
    potential. *)
Lemma bfs_loop_ends links U depth :
  list_to_set (endpoints links) ⊆ U →
  ∀ fuel st,
    (potential U st ≤ fuel)%nat →
    queue (bfs_loop fuel (adjacency_of links) depth st) = [].
Proof.
  intros HU fuel. induction fuel as [|fuel IH]; intros [V q] Hpot; simpl.
  - unfold potential in Hpot. simpl in Hpot. destruct q; [done | simpl in Hpot; lia].
  - destruct q as [|curr rest]; [done|].
    apply IH. rewrite potential_body by done.
    unfold potential in *. simpl in *. lia.
Qed.

Lemma potential_init links nodeID :
  (potential ({[nodeID]} ∪ list_to_set (endpoints links)) (bfs_init nodeID)
   ≤ bfs_fuel links)%nat.
Proof.
  unfold potential, bfs_init, bfs_fuel. simpl.
  pose proof (size_list_to_set_le (endpoints links)) as Hle.
  rewrite length_endpoints in Hle.
  assert (({[nodeID]} ∪ list_to_set (endpoints links)) ∖ {[nodeID]}
          ⊆ (list_to_set (endpoints links) : gset string)) as Hsub by set_solver.
  apply subseteq_size in Hsub. lia.
Qed.

(** The traversal loop of [LocalGraph] is left because its queue is empty,
    never because the model ran out of fuel. *)
Lemma bfs_final_queue nodeID depth links :
  queue (bfs_final nodeID depth links) = [].
Proof.
  unfold bfs_final.
  apply (bfs_loop_ends links ({[nodeID]} ∪ list_to_set (endpoints links)) depth).
  - set_solver.
  - apply potential_init.
Qed.

Lemma bfs_inv_init links focal D :
  0 ≤ D → bfs_inv links focal D [] (bfs_init focal) 0.
Proof.
  intros HD. split; simpl.
  - intros v. rewrite elem_of_singleton. split.
    + intros ->. exists 0. by apply list_elem_of_singleton.
    + intros [d Hd]. apply list_elem_of_singleton in Hd. congruence.
  - intros v d Hd. apply list_elem_of_singleton in Hd. simplify_eq.
    split; [lia | constructor].
  - by apply list_elem_of_singleton.
  - intros v d Hd. by apply elem_of_nil in Hd.
  - exists [(focal, 0)], []. split; [done|]. split.
    + intros v d Hd. apply list_elem_of_singleton in Hd. congruence.
    + intros v d Hd. by apply elem_of_nil in Hd.
  - intros u d w Hd. by apply elem_of_nil in Hd.
Qed.

(** When no entry of depth [k] is left, the invariant holds one level on. *)
Lemma bfs_inv_next_level links focal D done st k :
  bfs_inv links focal D done st k →
  (∀ v d, (v, d) ∈ queue st → d = k + 1) →
  bfs_inv links focal D done st (k + 1).
Proof.
  intros [Hv Hs Hf Hd Hl Hc] Hq. split; try done.
  - intros v d Hin. apply Hd in Hin. lia.
  - exists (queue st), []. split; [by rewrite app_nil_r|]. split; [done|].
    intros v d Hin. by apply elem_of_nil in Hin.
Qed.

(** One turn of the outer loop keeps the invariant. *)
Lemma bfs_inv_body links focal D done V curr rest k :
  bfs_inv links focal D done {| visited := V; queue := curr :: rest |} k →
  ∃ k', bfs_inv links focal D (done ++ [curr])
          (bfs_body (adjacency_of links) D curr {| visited := V; queue := rest |}) k'.
Proof.
  intros Hinv.
  (* the head of the queue is at the current level *)
  assert (∃ k qa qb,
            bfs_inv links focal D done {| visited := V; queue := curr :: rest |} k
            ∧ curr.2 = k ∧ rest = qa ++ qb
            ∧ (∀ v d, (v, d) ∈ qa → d = k) ∧ (∀ v d, (v, d) ∈ qb → d = k + 1))
    as (k0 & qa & qb & Hinv0 & Hk0 & Hrest & Hqa & Hqb).
  { destruct (inv_levels _ _ _ _ _ _ Hinv) as (qa & qb & Hq & Ha & Hb). simpl in Hq.
    destruct qa as [|a qa]; simpl in Hq.
    - subst qb. exists (k + 1), rest, []. split; [|split; [|split; [|split]]].
      + by apply bfs_inv_next_level.
      + destruct curr as [u d]. simpl. apply (Hb u). by left.
      + by rewrite app_nil_r.
      + intros v d Hin. apply (Hb v). by right.
      + intros v d Hin. by apply elem_of_nil in Hin.
    - injection Hq as <- ->. exists k, qa, qb. split; [done|].
      split; [|split; [done|split; [|done]]].
      + destruct curr as [u d]. simpl. apply (Ha u). by left.
      + intros v d' Hin. apply (Ha v). by right. }
  clear Hinv k. destruct curr as [u d0]. simpl in Hk0. subst d0.
  destruct Hinv0 as [Hv Hs Hf Hd _ Hc]. simpl in *.
  assert (Hmove : ∀ x, x ∈ done ++ (u, k0) :: rest ↔ x ∈ (done ++ [(u, k0)]) ++ rest).
  { intros x. by rewrite <- app_assoc. }
  assert (Hdone' : ∀ v d, (v, d) ∈ done ++ [(u, k0)] → d ≤ k0).
  { intros v d Hin. apply elem_of_app in Hin as [Hin|Hin]; [by apply (Hd v)|].
    apply list_elem_of_singleton in Hin. simplify_eq. lia. }
  unfold bfs_body. simpl. case_bool_decide as Hdeep.
  - (* the entry is at the depth limit: it is not expanded *)
    exists k0. split; simpl.
    + intros v. rewrite Hv. by setoid_rewrite Hmove.
    + intros v d Hin. apply Hs. by apply Hmove.
    + by apply Hmove.
    + done.
    + by exists qa, qb.
    + intros u' d w Hin Hlt Hl.
      apply elem_of_app in Hin as [Hin|Hin].
      * destruct (Hc u' d w Hin Hlt Hl) as (d' & Hin' & Hle).
        exists d'. split; [by apply Hmove | done].
      * apply list_elem_of_singleton in Hin. simplify_eq. lia.
  - (* the neighbours not yet visited are queued one level deeper *)
    rewrite foldl_visit_neighbor. simpl.
    set (ns := index [] (adjacency_of links) u).
    set (F := (λ w, (w, k0 + 1)) <$> unseen V ns).
    assert (HF : ∀ v d, (v, d) ∈ F ↔ d = k0 + 1 ∧ v ∈ ns ∧ v ∉ V).
    { intros v d. unfold F. rewrite list_elem_of_fmap. split.
      - intros (w & Heq & Hw). apply elem_of_unseen in Hw. by simplify_eq.
      - intros (-> & Hw). exists v. split; [done | by apply elem_of_unseen]. }
    assert (Hnew : ∀ x, x ∈ (done ++ [(u, k0)]) ++ rest ++ F
                        ↔ x ∈ done ++ (u, k0) :: rest ∨ x ∈ F).
    { intros x. rewrite app_assoc, elem_of_app, <- Hmove. done. }
    assert (Hu : 0 ≤ k0 ≤ D ∧ spec.hops links focal (Z.to_nat k0) u).
    { apply Hs. apply elem_of_app. right. by left. }
    assert (Hvis : ∀ v, v ∈ list_to_set ns ∪ V
                        ↔ ∃ d, (v, d) ∈ (done ++ [(u, k0)]) ++ rest ++ F).
    { intros v. setoid_rewrite Hnew. rewrite elem_of_union, elem_of_list_to_set. split.
      - intros [Hn|HV].
        + destruct (decide (v ∈ V)) as [HV|HV].
          * apply Hv in HV as [d Hin]. exists d. by left.
          * exists (k0 + 1). right. by apply HF.
        + apply Hv in HV as [d Hin]. exists d. by left.
      - intros [d [Hin|Hin]].
        + right. apply Hv. by exists d.
        + left. by apply HF in Hin as (_ & ? & _). }
    assert (Hdepth : ∀ v d, (v, d) ∈ (done ++ [(u, k0)]) ++ rest ++ F → d ≤ k0 + 1).
    { intros v d Hin. apply elem_of_app in Hin as [Hin|Hin].
      - apply Hdone' in Hin. lia.
      - apply elem_of_app in Hin as [Hin|Hin].
        + rewrite Hrest in Hin. apply elem_of_app in Hin as [Hin|Hin].
          * apply Hqa in Hin. lia.
          * apply Hqb in Hin. lia.
        + apply HF in Hin. lia. }
    exists k0. split; simpl.
    + done.
    + intros v d Hin. apply Hnew in Hin as [Hin|Hin]; [by apply Hs|].
      apply HF in Hin as (-> & Hn & _). split; [lia|].
      replace (Z.to_nat (k0 + 1)) with (S (Z.to_nat k0)) by lia.
      apply spec.hops_step with u; [apply Hu|]. by apply elem_of_adjacency.
    + apply Hnew. by left.
    + done.
    + exists qa, (qb ++ F). split; [by rewrite Hrest, app_assoc|]. split; [done|].
      intros v d Hin. apply elem_of_app in Hin as [Hin|Hin]; [by apply (Hqb v)|].
      by apply HF in Hin as (-> & _).
    + intros u' d w Hin Hlt Hl.
      apply elem_of_app in Hin as [Hin|Hin].
      * destruct (Hc u' d w Hin Hlt Hl) as (d' & Hin' & Hle).
        exists d'. split; [|done]. apply Hnew. by left.
      * apply list_elem_of_singleton in Hin. simplify_eq.
        assert (w ∈ list_to_set ns ∪ V) as Hw.
        { apply elem_of_union. left. apply elem_of_list_to_set.
          by apply elem_of_adjacency. }
        apply Hvis in Hw as [d' Hin]. exists d'. split; [done|].
        by apply Hdepth in Hin.
Qed.

(** Fuel beyond the point where the queue is empty changes nothing. *)
Lemma bfs_loop_more_fuel adjacency depth n m st :
  queue (bfs_loop n adjacency depth st) = [] →
  bfs_loop (n + m) adjacency depth st = bfs_loop n adjacency depth st.
Proof.
  revert st. induction n as [|n IH]; intros st Hq; simpl in *.
  - destruct m; [done|]. simpl. by rewrite Hq.
  - destruct (queue st) as [|curr rest]; [done|]. by apply IH.
Qed.

(** The invariant holds when the loop is left. *)
Lemma bfs_inv_loop links focal D fuel :
  ∀ done st k,
    bfs_inv links focal D done st k →
    ∃ done' k', bfs_inv links focal D done' (bfs_loop fuel (adjacency_of links) D st) k'.
Proof.
  induction fuel as [|fuel IH]; intros done [V q] k Hinv; simpl.
  - by exists done, k.
  - destruct q as [|curr rest]; [by exists done, k|].
    destruct (bfs_inv_body _ _ _ _ _ _ _ _ Hinv) as [k' Hinv'].
    by apply (IH _ _ _ Hinv').
Qed.

(** With the queue empty, every id within [D] hops has been taken off the
    queue, at a depth no larger than the length of any walk to it. *)
Lemma bfs_inv_complete links focal D done st k :
  bfs_inv links focal D done st k → queue st = [] →
  ∀ n v, spec.hops links focal n v → Z.of_nat n ≤ D →
         ∃ d, (v, d) ∈ done ∧ d ≤ Z.of_nat n.
Proof.
  intros [Hv Hs Hf Hd _ Hc] Hq. rewrite Hq, app_nil_r in *.
  intros n v Hhops. induction Hhops as [|n u w Hhops IH Hl]; intros Hn.
  - by exists 0.
  - destruct IH as (d & Hin & Hle); [lia|].
    destruct (Hc u d w Hin) as (d' & Hin' & Hle'); [lia | done |].
    exists d'. split; [done | lia].
Qed.
End bfs_traversal.

(** C2. With a depth [D] that is not negative, the traversal of [LocalGraph]
    visits exactly the ids whose undirected hop distance from the focal id,
    over the whole link list, is at most [D]: the focal id itself at distance
    0, and ids at distance [D] without going past them. *)
Theorem LocalGraph_visits_within_depth (focal : string) (D : Z) (links : list db.Link) :
  0 ≤ D →
  ∀ v, v ∈ graph.bfs_visited focal D links ↔ spec.within links focal D v.
Proof.
  intros HD v. unfold graph.bfs_visited, graph.bfs_final.
  destruct (bfs_inv_loop links focal D (graph.bfs_fuel links) [] (graph.bfs_init focal) 0
              (bfs_inv_init links focal D HD)) as (done & k & Hinv).
  pose proof (bfs_final_queue focal D links) as Hq. unfold graph.bfs_final in Hq.
  pose proof (bfs_inv_complete _ _ _ _ _ _ Hinv Hq) as Hcomplete.
  destruct Hinv as [Hv Hs _ _ _ _]. rewrite Hq, app_nil_r in *.
  rewrite Hv. split.
  - intros [d Hin]. apply Hs in Hin as [Hd Hhops].
    exists (Z.to_nat d). split; [lia | done].
  - intros (n & Hn & Hhops). destruct (Hcomplete n v Hhops Hn) as (d & Hin & _).
    by exists d.
Qed.

Lemma LocalGraph_visits_within_depth_witness :
  0 ≤ 1 ∧ ∀ v, v ∈ graph.bfs_visited "B" 1 chain_ABC ↔ spec.within chain_ABC "B" 1 v.
Proof.
  split; [lia|]. apply (LocalGraph_visits_within_depth "B" 1 chain_ABC). lia.
Defined.

(** With links A→B and B→C only, the ego graph of B at depth 1 visits A, B
    and C. *)
Example ego_B_depth_1 : graph.bfs_visited "B" 1 chain_ABC = {["A"; "B"; "C"]}.
Proof. by vm_compute. Qed.

(** With the same links, the ego graph of A at depth 1 visits A and B, and
    not C. *)
Example ego_A_depth_1 :
  graph.bfs_visited "A" 1 chain_ABC = {["A"; "B"]} ∧ "C" ∉ graph.bfs_visited "A" 1 chain_ABC.
Proof. split; [by vm_compute|]. by vm_compute. Qed.

(** ** The local projection *)

Section local_graph.
Implicit Types (nodes : list db.Node) (links : list db.Link)
               (nodeTags : gmap string (list string)) (ro : RangeOrder).

Lemma nodeMap_of_from nodes (m : gmap string db.Node) id n :
  foldl (λ m n, <[db.ID n := n]> m) m nodes !! id = Some n →
  (db.ID n = id ∧ n ∈ nodes) ∨ m !! id = Some n.
Proof.
  revert m. induction nodes as [|x nodes IH]; intros m; simpl; [by right|].
  intros H. apply IH in H as [[? ?]|H]; [left; split; [done | by right]|].
  rewrite lookup_insert in H. case_decide; simplify_eq; [|by right].
  left. split; [done | by left].
Qed.

Lemma nodeMap_of_Some nodes id n :
  graph.nodeMap_of nodes !! id = Some n → db.ID n = id ∧ n ∈ nodes.
Proof.
  intros H. apply nodeMap_of_from in H as [?|H]; [done|].
  by rewrite lookup_empty in H.
Qed.

Lemma nodeMap_of_is_Some_from nodes (m : gmap string db.Node) id :
  id ∈ db.ID <$> nodes ∨ is_Some (m !! id) →
  is_Some (foldl (λ m n, <[db.ID n := n]> m) m nodes !! id).
Proof.
  revert m. induction nodes as [|x nodes IH]; intros m; simpl.
  - intros [H|H]; [by apply elem_of_nil in H | done].
  - intros H. apply IH. rewrite lookup_insert. case_decide; [by right|].
    destruct H as [H|H]; [|by right].
    rewrite ?fmap_cons in H. apply elem_of_cons in H as [?|?]; [congruence | by left].
Qed.

Lemma nodeMap_of_is_Some nodes id :
  id ∈ db.ID <$> nodes → is_Some (graph.nodeMap_of nodes !! id).
Proof. intros H. apply nodeMap_of_is_Some_from. by left. Qed.

(** The node loop of [LocalGraph] emits one node for every visited id that
    the node table knows, in the order of the range. *)
Lemma LocalGraph_node_ids ro focal D nodes links nodeTags :
  graph.ID <$> graph.Nodes (graph.LocalGraph ro focal D nodes links nodeTags)
  = filter (λ id, id ∈ db.ID <$> nodes) (range_set ro (graph.bfs_visited focal D links)).
Proof.
  unfold graph.LocalGraph. cbn [graph.Nodes].
  generalize (range_set ro (graph.bfs_visited focal D links)). intros ids.
  erewrite (foldl_append _
    (λ id, match graph.nodeMap_of nodes !! id with
           | Some n => [{| graph.ID := db.ID n; graph.Title := db.Title n;
                           graph.Tags := index [] nodeTags id;
                           graph.LinkCount :=
                             index 0 (graph.count_links (graph.bfs_visited focal D links)
                                        links) id |}]
           | None => []
           end)).
  2:{ intros acc id. destruct (graph.nodeMap_of nodes !! id); [done|].
      by rewrite app_nil_r. }
  simpl. induction ids as [|id ids IH]; [done|].
  csimpl. rewrite fmap_app, IH, filter_cons.
  destruct (graph.nodeMap_of nodes !! id) as [n|] eqn:E.
  - apply nodeMap_of_Some in E as [<- Hin].
    rewrite decide_True; [done|]. by apply list_elem_of_fmap_2.
  - rewrite decide_False; [done|]. intros Hin.
    apply nodeMap_of_is_Some in Hin. rewrite E in Hin. by destruct Hin.
Qed.

Lemma LocalGraph_Links ro focal D nodes links nodeTags :
  graph.Links (graph.LocalGraph ro focal D nodes links nodeTags)
  = spec.edge_of
    <$> filter (λ l, db.Source l ∈ graph.bfs_visited focal D links
                     ∧ db.Target l ∈ graph.bfs_visited focal D links) links.
Proof.
  unfold graph.LocalGraph. cbn [graph.Links]. rewrite add_links_filter.
  f_equal. apply list_filter_iff. intros l. by rewrite both_in_true.
Qed.

Lemma elem_of_LocalGraph_node_ids ro focal D nodes links nodeTags id :
  id ∈ graph.ID <$> graph.Nodes (graph.LocalGraph ro focal D nodes links nodeTags)
  ↔ id ∈ graph.bfs_visited focal D links ∧ id ∈ db.ID <$> nodes.
Proof.
  rewrite LocalGraph_node_ids, list_elem_of_filter. unfold range_set.
  rewrite (range_order_perm ro), elem_of_elements. tauto.
Qed.

(** At depth 0 the focal id is taken off the queue and not expanded. *)
Lemma bfs_visited_depth_0 focal links : graph.bfs_visited focal 0 links = {[focal]}.
Proof.
  unfold graph.bfs_visited, graph.bfs_final, graph.bfs_fuel. simpl.
  unfold graph.bfs_body. simpl.
  by destruct (length links + (length links + 0))%nat.
Qed.
End local_graph.

(** The global projection has no dangling edge. *)
Lemma BuildGraph_edges_closed nodes links nodeTags :
  spec.edges_closed (graph.BuildGraph nodes links nodeTags).
Proof.
  intros e. rewrite BuildGraph_Links, BuildGraph_node_ids.
  unfold spec.qualifying_edges. rewrite list_elem_of_fmap.
  intros (l & -> & Hl). apply list_elem_of_filter in Hl as [Hq _]. exact Hq.
Qed.

(** C1.  The invariant fails for [LocalGraph]: with the single published
    node A and the link A→B, where B is excluded or unknown, the local graph
    of A holds the node A alone and still emits the edge A→B, whose target is
    not one of its nodes.  The edge loop tests the visited set only; the node
    loop tests the node table as well. *)
Theorem LocalGraph_dangling_edge (ro : RangeOrder) :
  let g := graph.LocalGraph ro "A" 2 [mkNode "A" "a.org" "a"] [mkLink "A" "B"] ∅ in
  graph.ID <$> graph.Nodes g = ["A"]
  ∧ graph.Links g = [{| graph.Source := "A"; graph.Target := "B" |}]
  ∧ ¬ spec.edges_closed g.
Proof.
  intros g.
  assert (Hlinks : graph.Links g = [{| graph.Source := "A"; graph.Target := "B" |}]).
  { by vm_compute. }
  assert (HB : "B" ∉ graph.ID <$> graph.Nodes g).
  { unfold g. rewrite elem_of_LocalGraph_node_ids. intros [_ HB].
    simpl in HB. by apply list_elem_of_singleton in HB. }
  split; [|split; [done|]].
  - unfold g. rewrite LocalGraph_node_ids.
    assert (graph.bfs_visited "A" 2 [mkLink "A" "B"] = {["A"; "B"]}) as -> by by vm_compute.
    unfold range_set. apply Permutation_singleton_r.
    rewrite (range_order_perm ro). by vm_compute.
  - intros Hclosed. destruct (Hclosed {| graph.Source := "A"; graph.Target := "B" |}) as [_ H].
    + rewrite Hlinks. by left.
    + done.
Qed.

(** C3, as the code has it.  At depth 0 the local graph of a published focal
    node X holds exactly one node, X itself, and its edges are exactly the
    links from X to X; it has no edge when no link joins X to itself. *)
Theorem LocalGraph_depth_0 (ro : RangeOrder) (X : string) (nodes : list db.Node)
    (links : list db.Link) (nodeTags : gmap string (list string)) :
  X ∈ db.ID <$> nodes →
  let g := graph.LocalGraph ro X 0 nodes links nodeTags in
  graph.ID <$> graph.Nodes g = [X]
  ∧ graph.Links g
    = spec.edge_of <$> filter (λ l, db.Source l = X ∧ db.Target l = X) links
  ∧ ((∀ l, l ∈ links → ¬ (db.Source l = X ∧ db.Target l = X)) → graph.Links g = []).
Proof.
  intros HX g.
  assert (Hlinks : graph.Links g
            = spec.edge_of <$> filter (λ l, db.Source l = X ∧ db.Target l = X) links).
  { unfold g. rewrite LocalGraph_Links, bfs_visited_depth_0. f_equal.
    apply list_filter_iff. intros l. by rewrite !elem_of_singleton. }
  split; [|split; [done|]].
  - unfold g. rewrite LocalGraph_node_ids, bfs_visited_depth_0.
    unfold range_set. rewrite elements_singleton.
    assert (ro string [X] = [X]) as ->.
    { apply Permutation_singleton_r, range_order_perm. }
    rewrite filter_cons, decide_True by done. done.
  - intros Hnone. rewrite Hlinks.
    by rewrite filter_none.
Qed.

Lemma LocalGraph_depth_0_witness :
  "X" ∈ db.ID <$> [mkNode "X" "x.org" "x"; mkNode "Y" "y.org" "y"]
  ∧ let g := graph.LocalGraph range_ascending "X" 0
               [mkNode "X" "x.org" "x"; mkNode "Y" "y.org" "y"]
               [mkLink "X" "Y"] ∅ in
    graph.ID <$> graph.Nodes g = ["X"]
    ∧ graph.Links g
      = spec.edge_of <$> filter (λ l, db.Source l = "X" ∧ db.Target l = "X") [mkLink "X" "Y"]
    ∧ ((∀ l, l ∈ [mkLink "X" "Y"] → ¬ (db.Source l = "X" ∧ db.Target l = "X"))
       → graph.Links g = []).
Proof.
  split.
  - simpl. by left.
  - apply (LocalGraph_depth_0 range_ascending "X"
             [mkNode "X" "x.org" "x"; mkNode "Y" "y.org" "y"] [mkLink "X" "Y"] ∅).
    simpl. by left.
Defined.

(** C3 as stated fails: a note X that links to itself has, at depth 0, a
    local graph with the one node X and the one edge X→X. *)
Lemma LocalGraph_depth_0_self_link :
  let g := graph.LocalGraph range_ascending "X" 0
             [mkNode "X" "x.org" "x"] [mkLink "X" "X"] ∅ in
  graph.ID <$> graph.Nodes g = ["X"]
  ∧ graph.Links g = [{| graph.Source := "X"; graph.Target := "X" |}]
  ∧ ¬ (length (graph.Nodes g) = 1%nat ∧ length (graph.Links g) = 0%nat).
Proof.
  split; [by vm_compute|]. split; [by vm_compute|].
  intros [_ H]. by vm_compute in H.
Qed.

(** C4.  In the global projection the [linkCount] of every node is the
    number of qualifying edges (links with both ends in the published node
    list) in which its id is the source plus the number in which it is the
    target; a qualifying link from a node to itself counts twice, and links
    that do not qualify are not counted. *)
Theorem BuildGraph_linkCount (nodes : list db.Node) (links : list db.Link)
    (nodeTags : gmap string (list string)) (gn : graph.GraphNode) :
  gn ∈ graph.Nodes (graph.BuildGraph nodes links nodeTags) →
  graph.LinkCount gn = spec.degree (spec.qualifying_edges nodes links) (graph.ID gn).
Proof.
  rewrite BuildGraph_Nodes, list_elem_of_fmap. intros (n & -> & _). simpl.
  rewrite count_links_degree, <- (BuildGraph_Links nodes links nodeTags). done.
Qed.

(** A is published, B is not; A links to itself once and to B once. *)
Lemma BuildGraph_linkCount_witness :
  let nodes := [mkNode "A" "a.org" "a"] in
  let links := [mkLink "A" "A"; mkLink "A" "B"] in
  let gn := {| graph.ID := "A"; graph.Title := "a"; graph.Tags := []; graph.LinkCount := 2 |} in
  gn ∈ graph.Nodes (graph.BuildGraph nodes links ∅)
  ∧ graph.LinkCount gn = spec.degree (spec.qualifying_edges nodes links) (graph.ID gn).
Proof.
  intros nodes links gn.
  assert (Hin : gn ∈ graph.Nodes (graph.BuildGraph nodes links ∅)).
  { vm_compute. by left. }
  split; [exact Hin|].
  exact (BuildGraph_linkCount nodes links ∅ gn Hin).
Defined.

(** The count stays within twice the number of links. *)
Lemma BuildGraph_linkCount_bound nodes links nodeTags gn :
  gn ∈ graph.Nodes (graph.BuildGraph nodes links nodeTags) →
  0 ≤ graph.LinkCount gn ≤ 2 * Z.of_nat (length links).
Proof.
  rewrite BuildGraph_Nodes, list_elem_of_fmap. intros (n & -> & _). simpl.
  rewrite count_links_degree, add_links_filter. unfold spec.degree.
  pose proof (length_filter (λ e, graph.Source e = db.ID n)
    (spec.edge_of <$> filter (λ l, graph.both_in (graph.nodeSet_of nodes) l = true) links)).
  pose proof (length_filter (λ e, graph.Target e = db.ID n)
    (spec.edge_of <$> filter (λ l, graph.both_in (graph.nodeSet_of nodes) l = true) links)).
  pose proof (length_filter (λ l, graph.both_in (graph.nodeSet_of nodes) l = true) links).
  rewrite length_fmap in *. lia.
Qed.

(** C9.  The node ids of graph.json and the ids of search.json are the ids
    of the published nodes, as sets and even as lists in corpus order. *)
Theorem graph_and_search_ids (r : render.Renderer) :
  let graph_ids := graph.ID <$> graph.Nodes (render.graph_artifact r) in
  let search_ids := search.ID <$> search.Entries (render.search_artifact r) in
  let corpus_ids := db.ID <$> render.nodes r in
  (list_to_set graph_ids : gset string) = list_to_set search_ids
  ∧ (list_to_set graph_ids : gset string) = list_to_set corpus_ids
  ∧ (list_to_set search_ids : gset string) = list_to_set corpus_ids
  ∧ graph_ids = corpus_ids ∧ search_ids = corpus_ids.
Proof.
  intros graph_ids search_ids corpus_ids.
  assert (Hg : graph_ids = corpus_ids).
  { unfold graph_ids, render.graph_artifact. apply BuildGraph_node_ids. }
  assert (Hs : search_ids = corpus_ids).
  { unfold search_ids, render.search_artifact, search.BuildIndex. simpl.
    rewrite foldl_snoc_fmap. simpl. by rewrite <- list_fmap_compose. }
  by rewrite Hg, Hs.
Qed.

(** ** Node filtering *)

Section filter_nodes.
Context (env : render.Env).

Lemma elem_of_set_of (l : list string) x : x ∈ render.set_of l ↔ x ∈ l.
Proof.
  unfold render.set_of. rewrite (foldl_union_singletons id).
  rewrite list_fmap_id. set_solver.
Qed.

Lemma tag_loop_true (l tags : list string) :
  render.tag_loop (render.set_of l) tags = true ↔ Exists (λ t, t ∈ l) tags.
Proof.
  induction tags as [|t tags IH]; simpl.
  - split; [done | by intros H%Exists_nil].
  - rewrite Exists_cons. case_bool_decide as Ht; rewrite elem_of_set_of in Ht.
    + split; [by left | done].
    + rewrite IH. tauto.
Qed.

Lemma file_loop_true (patterns : list string) base :
  render.file_loop env patterns base = true
  ↔ Exists (λ p, (render.filepath_Match env p base).1 = true) patterns.
Proof.
  induction patterns as [|p patterns IH]; simpl.
  - split; [done | by intros H%Exists_nil].
  - rewrite Exists_cons. destruct ((render.filepath_Match env p base).1) eqn:E.
    + split; [by left | done].
    + rewrite IH. split; [by right | by intros [?|?]].
Qed.
End filter_nodes.

(** [filterNodes] is one pass of [filter] with the exclusion test. *)
Lemma filterNodes_eq_filter (env : render.Env) (c : config.Config)
    (nodes : list db.Node) (nodeTags : gmap string (list string)) :
  render.filterNodes env c nodes nodeTags
  = filter (λ n, ¬ filter_spec.excluded env c nodeTags n) nodes.
Proof.
  unfold render.filterNodes.
  rewrite (foldl_append _ (λ n, if decide (filter_spec.excluded env c nodeTags n)
                                then [] else [n])).
  - simpl. induction nodes as [|n nodes IH]; [done|].
    csimpl. rewrite filter_cons, IH.
    destruct (decide (filter_spec.excluded env c nodeTags n)) as [He|He].
    + by rewrite decide_False by tauto.
    + by rewrite decide_True by done.
  - intros acc n. unfold filter_spec.excluded.
    case_bool_decide as Hid; rewrite elem_of_set_of in Hid.
    { rewrite decide_True by (by left). by rewrite app_nil_r. }
    destruct (render.tag_loop _ _) eqn:Htag.
    { apply tag_loop_true in Htag.
      rewrite decide_True by (right; by left). by rewrite app_nil_r. }
    destruct (render.file_loop _ _ _) eqn:Hfile.
    { apply file_loop_true in Hfile.
      rewrite decide_True by (right; by right). by rewrite app_nil_r. }
    rewrite decide_False; [done|].
    intros [?|[Ht|Hf]]; [done| |].
    + apply tag_loop_true in Ht. congruence.
    + apply (file_loop_true env) in Hf. congruence.
Qed.

(** C5.  The published node list is the input list without the excluded
    nodes: a node is dropped exactly when its id is an excluded id, or one of
    its tags is an excluded tag, or the base name of its file matches an
    excluded pattern; the nodes that stay keep their order. *)
Theorem filterNodes_filter (env : render.Env) (c : config.Config)
    (nodes : list db.Node) (nodeTags : gmap string (list string)) :
  render.filterNodes env c nodes nodeTags
  = filter (λ n, ¬ filter_spec.excluded env c nodeTags n) nodes
  ∧ sublist (render.filterNodes env c nodes nodeTags) nodes
  ∧ ∀ n, n ∈ render.filterNodes env c nodes nodeTags
         ↔ n ∈ nodes ∧ ¬ filter_spec.excluded env c nodeTags n.
Proof.
  rewrite filterNodes_eq_filter. split; [done|]. split.
  - apply sublist_filter.
  - intros n. rewrite list_elem_of_filter. tauto.
Qed.

(** ** Links and backlinks of a note page *)

Section note_links.
Context (env : render.Env).

Lemma note_links_omap r parsed :
  render.note_links r parsed
  = omap (λ l, render.LinkData.mk (parser.ID l) <$> render.nodeMap r !! parser.ID l)
         (parser.Links parsed).
Proof.
  unfold render.note_links.
  rewrite (foldl_append _
    (λ l, match render.nodeMap r !! parser.ID l with
          | Some title => [render.LinkData.mk (parser.ID l) title]
          | None => []
          end)).
  - simpl. induction (parser.Links parsed) as [|l ls IH]; [done|].
    csimpl. rewrite IH. by destruct (render.nodeMap r !! parser.ID l).
  - intros acc l. destruct (render.nodeMap r !! parser.ID l); [done|].
    by rewrite app_nil_r.
Qed.

Lemma note_backlinks_omap r n :
  render.note_backlinks r n
  = omap (λ id, render.LinkData.mk id <$> render.nodeMap r !! id)
         (index [] (render.backlinks r) (db.ID n)).
Proof.
  unfold render.note_backlinks.
  rewrite (foldl_append _
    (λ id, match render.nodeMap r !! id with
           | Some title => [render.LinkData.mk id title]
           | None => []
           end)).
  - simpl. induction (index [] (render.backlinks r) (db.ID n)) as [|l ls IH]; [done|].
    csimpl. rewrite IH. by destruct (render.nodeMap r !! l).
  - intros acc l. destruct (render.nodeMap r !! l); [done|].
    by rewrite app_nil_r.
Qed.

(** The ids that survive the lookup are the ids with a title, in order. *)
Lemma resolved_ids {A} (key : A → string) (m : gmap string string) (l : list A) :
  render.LinkData.ID <$> omap (λ x, render.LinkData.mk (key x) <$> m !! key x) l
  = filter (λ id, is_Some (m !! id)) (key <$> l).
Proof.
  induction l as [|x l IH]; [done|].
  csimpl. rewrite filter_cons. destruct (m !! key x) eqn:E; simpl.
  - f_equal. apply IH.
  - apply IH.
Qed.
End note_links.

(** After [loadData], the title map knows exactly the ids of the published
    nodes: an id is missing from it when its node is excluded or when there
    is no such node. *)
Lemma title_map_from (nodes : list db.Node) (m : gmap string string) (id : string) :
  is_Some (foldl (λ m n, <[db.ID n := db.Title n]> m) m nodes !! id)
  ↔ id ∈ db.ID <$> nodes ∨ is_Some (m !! id).
Proof.
  revert m. induction nodes as [|n nodes IH]; intros m; simpl.
  - split; [by right | intros [H|H]; [by apply elem_of_nil in H | done]].
  - rewrite IH, lookup_insert, elem_of_cons. case_decide as Hn.
    + subst id. split; [intros _; by left; left | intros _; by right].
    + split; [intros [?|?]; [left; by right | by right]|].
      intros [[?|?]|?]; [congruence | by left | by right].
Qed.

Lemma loadData_nodeMap (env : render.Env) (c : config.Config) (r : render.Renderer) :
  render.loadData env (render.NewRenderer c) = (None, r) →
  ∀ id, is_Some (render.nodeMap r !! id) ↔ id ∈ db.ID <$> render.nodes r.
Proof.
  unfold render.loadData. intros Hload id.
  destruct (render.db_Open env _); [done|].
  destruct (render.db_LoadNodes env) as [|nodes]; [done|].
  destruct (render.db_LoadTags env) as [|nodeTags]; [done|].
  destruct (render.db_LoadLinks env) as [|links]; [done|].
  injection Hload as <-. simpl. rewrite title_map_from, lookup_empty.
  split; [intros [?|[? ?]]; done | by left].
Qed.

(** C6.  On a note page every forward link and every backlink is looked up
    in the title map of the published nodes; an id without a title there is
    left out of the list, the others stay in order with their titles.  The
    lookup raises nothing: once the file is parsed and the local graph is
    serialized, the result of [generateNote] is the result of rendering the
    page, whatever ids were left out. *)
Theorem generateNote_drops_unresolved (env : render.Env) (r : render.Renderer)
    (n : db.Node) (notesDir : string) (parsed : parser.ParsedFile) (localJSON : string) :
  render.ParseFile env (db.File n) = inr parsed →
  render.Graph_ToJSON env (render.note_localGraph env r n) = inr localJSON →
  let d := render.noteData env r n parsed localJSON in
  render.NoteData.Links d
  = omap (λ l, render.LinkData.mk (parser.ID l) <$> render.nodeMap r !! parser.ID l)
         (parser.Links parsed)
  ∧ render.NoteData.Backlinks d
    = omap (λ id, render.LinkData.mk id <$> render.nodeMap r !! id)
           (index [] (render.backlinks r) (db.ID n))
  ∧ render.LinkData.ID <$> render.NoteData.Links d
    = filter (λ id, is_Some (render.nodeMap r !! id)) (parser.ID <$> parser.Links parsed)
  ∧ render.LinkData.ID <$> render.NoteData.Backlinks d
    = filter (λ id, is_Some (render.nodeMap r !! id)) (index [] (render.backlinks r) (db.ID n))
  ∧ render.generateNote env r n notesDir
    = render.renderPage env "note.html"
        (render.filepath_Join env notesDir (db.ID n +:+ ".html")) (render.NotePage d).
Proof.
  intros Hparse Hjson d. unfold d, render.noteData. simpl.
  rewrite note_links_omap, note_backlinks_omap.
  split; [done|]. split; [done|]. split; [apply resolved_ids|]. split.
  - rewrite (resolved_ids id). by rewrite list_fmap_id.
  - unfold render.generateNote. rewrite Hparse, Hjson.
    unfold render.noteData. by rewrite note_links_omap, note_backlinks_omap.
Qed.

(** Notes A and B are published; C links to A but is not.  The page of A
    keeps the link to B, drops the link to Z and the backlink from C, and is
    generated without an error. *)
Lemma generateNote_drops_unresolved_witness :
  let env := sample_env range_ascending merge_sorter in
  let A := mkNode "A" "a.org" "Note A" in
  let r := sample_renderer config.DefaultConfig [A; mkNode "B" "b.org" "Note B"]
             [mkLink "B" "A"; mkLink "C" "A"] ∅ in
  let d := render.noteData env r A
             {| parser.Title := "a.org"; parser.Content := "";
                parser.Links := [{| parser.ID := "B" |}; {| parser.ID := "Z" |}];
                parser.ToC := [] |} "{}" in
  render.NoteData.Links d = [render.LinkData.mk "B" "Note B"]
  ∧ render.NoteData.Backlinks d = [render.LinkData.mk "B" "Note B"]
  ∧ render.generateNote env r A "dist/notes" = None.
Proof.
  intros env A r d.
  destruct (generateNote_drops_unresolved env r A "dist/notes"
              {| parser.Title := "a.org"; parser.Content := "";
                 parser.Links := [{| parser.ID := "B" |}; {| parser.ID := "Z" |}];
                 parser.ToC := [] |} "{}" eq_refl eq_refl)
    as (Hl & Hb & _ & _ & Hgen).
  split; [|split].
  - etrans; [exact Hl|]. by vm_compute.
  - etrans; [exact Hb|]. by vm_compute.
  - etrans; [exact Hgen|]. reflexivity.
Defined.

(** ** Loading the configuration *)

(** C10.  When reading the configuration file fails because the file does not
    exist, [Load] returns the default configuration and no error; the
    defaults exclude the tags private and draft, list 20 recent notes and
    draw local graphs of depth 2.  [Load] returns an error in two cases only:
    reading fails for another reason, or the YAML decoder rejects the data. *)
Theorem Load_missing_file_gives_defaults (env : config.Env) (path : string) :
  (∀ err, config.os_ReadFile env path = inl err →
          config.os_IsNotExist env err = true →
          config.Load env path = (Some config.DefaultConfig, None))
  ∧ (∀ e, (config.Load env path).2 = Some e
          ↔ (config.os_ReadFile env path = inl e ∧ config.os_IsNotExist env e = false)
            ∨ (∃ data, config.os_ReadFile env path = inr data
                       ∧ config.yaml_Unmarshal env data config.DefaultConfig = inl e))
  ∧ config.Tags (config.Exclude config.DefaultConfig) = ["private"; "draft"]
  ∧ config.RecentCount (config.Display config.DefaultConfig) = 20
  ∧ config.LocalGraphDepth (config.Display config.DefaultConfig) = 2.
Proof.
  split; [|split; [|done]].
  - intros err Hread Hne. unfold config.Load. by rewrite Hread, Hne.
  - intros e. unfold config.Load.
    destruct (config.os_ReadFile env path) as [err|data] eqn:Hread.
    + destruct (config.os_IsNotExist env err) eqn:Hne; simpl.
      * split; [done|]. intros [[Heq Hf]|(data & Hd & _)]; [|done].
        simplify_eq. congruence.
      * split.
        -- intros [= ->]. by left.
        -- intros [[Heq _]|(data & Hd & _)]; [by simplify_eq | done].
    + destruct (config.yaml_Unmarshal env data config.DefaultConfig) as [err|c] eqn:Hy; simpl.
      * split.
        -- intros [= ->]. right. by exists data.
        -- intros [[Heq _]|(data' & Hd & Hy')]; [done|]. simplify_eq. congruence.
      * split; [done|]. intros [[Heq _]|(data' & Hd & Hy')]; [done|].
        simplify_eq. congruence.
Qed.

Lemma Load_missing_file_gives_defaults_witness :
  config.os_ReadFile sample_config_env "missing.yaml" = inl "ENOENT"
  ∧ config.os_IsNotExist sample_config_env "ENOENT" = true
  ∧ config.Load sample_config_env "missing.yaml" = (Some config.DefaultConfig, None)
  ∧ (config.Load sample_config_env "locked.yaml").2 = Some "EACCES".
Proof.
  split; [reflexivity|]. split; [reflexivity|]. split.
  - exact (proj1 (Load_missing_file_gives_defaults sample_config_env "missing.yaml")
             "ENOENT" eq_refl eq_refl).
  - apply (proj1 (proj2 (Load_missing_file_gives_defaults sample_config_env "locked.yaml"))).
    left. split; reflexivity.
Defined.

(** ** The runs of sort.Slice that the model covers *)

Section sort_runs.
Context {E : Type} (less : E → E → bool).

Lemma skip_not_less_le (data : list E) (a fuel i j : nat) :
  (gosort.skip_not_less less data a fuel i j ≤ j)%nat.
Proof.
  revert j. induction fuel as [|fuel IH]; intros j; simpl; [done|].
  destruct (_ && _); [|done]. etrans; [apply IH|]. lia.
Qed.

Lemma partition_loop_le (a fuel : nat) :
  ∀ (data : list E) (i j : nat),
    ((gosort.partition_loop less data a fuel i j).2 ≤ j)%nat.
Proof.
  induction fuel as [|fuel IH]; intros data i j; [done|].
  cbn [gosort.partition_loop].
  pose proof (skip_not_less_le data a (S j)
                (gosort.skip_less less data a (S j) i j) j) as Hj.
  destruct (_ <? _)%nat; [done|]. etrans; [apply IH|]. lia.
Qed.

(** The pivot comes to rest within the range. *)
Lemma partition_func_mid (data : list E) (a b pivot : nat) :
  ((gosort.partition_func less data a b pivot).1.2 ≤ b - 1)%nat.
Proof.
  unfold gosort.partition_func.
  match goal with
  | |- context [gosort.skip_not_less less ?d a ?f ?i ?j] =>
      pose proof (skip_not_less_le d a f i j) as Hj
  end.
  destruct (_ <? _)%nat; [done|].
  match goal with
  | |- context [gosort.partition_loop less ?d a ?f ?i ?j] =>
      pose proof (partition_loop_le a f d i j) as Hl;
      destruct (gosort.partition_loop less d a f i j) as [d' j']
  end.
  simpl in *. lia.
Qed.

Lemma choosePivot_func_hint (data : list E) (a b : nat) :
  (b - a < 50)%nat →
  ∃ pivot hint, gosort.choosePivot_func less data a b = Some (pivot, hint)
                ∧ hint ≠ gosort.decreasingHint.
Proof.
  intros Hl. unfold gosort.choosePivot_func.
  rewrite (proj2 (Nat.leb_gt 50 (b - a))) by done.
  destruct (8 <=? b - a)%nat; [|by eexists _, _].
  unfold gosort.median_func, gosort.order2_func.
  repeat (destruct (gosort.Less _ _ _ _)); by eexists _, _.
Qed.

(** Every slice of at most 13 elements is sorted within the model. *)
Lemma Slice_upto_13 (x : list E) :
  (length x ≤ 13)%nat → is_Some (gosort.Slice less x).
Proof.
  intros Hn. unfold gosort.Slice, gosort.pdqsort_func.
  destruct (length x <=? 12)%nat eqn:E12; [done|].
  apply Nat.leb_gt in E12. assert (length x = 13%nat) as -> by lia.
  destruct (choosePivot_func_hint x 0 13) as (pivot & hint & -> & Hhint); [lia|].
  cbn [mbind option_bind].
  assert (∀ k : option (list E),
            is_Some k →
            is_Some (gosort.partialInsertionSort_func less x 0 13
                     ≫= λ sorted : bool, if sorted then Some x else k)) as Hpartial.
  { intros k Hk. unfold gosort.partialInsertionSort_func.
    destruct (_ =? _)%nat; [done|]. by simpl. }
  pose proof (partition_func_mid x 0 13 pivot) as Hmid.
  destruct (gosort.partition_func less x 0 13 pivot) as [[d mid] ?]. simpl in Hmid.
  assert (∀ d lo hi, (hi - lo ≤ 12)%nat →
            gosort.pdqsort_short less d lo hi
            = Some (gosort.insertionSort_func less d lo hi)) as Hshort.
  { intros d' lo hi Hlen. unfold gosort.pdqsort_short.
    by rewrite (proj2 (Nat.leb_le (hi - lo) 12)). }
  assert (is_Some (if (mid - 0 <? 13 - mid)%nat
                   then gosort.pdqsort_short less d 0 mid
                        ≫= λ d', gosort.pdqsort_short less d' (mid + 1) 13
                   else gosort.pdqsort_short less d (mid + 1) 13
                        ≫= λ d', gosort.pdqsort_short less d' 0 mid)) as Hround.
  { destruct (_ <? _)%nat; rewrite Hshort by lia; cbn [mbind option_bind];
      by rewrite Hshort by lia. }
  destruct hint; [| |done].
  - cbn [mbind option_bind]. exact Hround.
  - by apply Hpartial.
Qed.
End sort_runs.

(** ** The home page *)

Section home.
Context (env : render.Env).

Lemma newer_strict_weak : strict_weak (render.newer env).
Proof.
  split; unfold render.newer, gotime.After.
  - intros x y H. apply Z.ltb_lt in H. apply Z.ltb_ge. lia.
  - intros x y z H1 H2. apply Z.ltb_ge in H1, H2. apply Z.ltb_ge. lia.
Qed.

Lemma not_after_newer a b :
  not_after (render.newer env) a b ↔ home_spec.not_older env a b.
Proof.
  unfold not_after, render.newer, gotime.After, home_spec.not_older, home_spec.date.
  by rewrite Z.ltb_ge.
Qed.

Lemma sorted_by_date (l : list db.Node) :
  StronglySorted (home_spec.not_older env) (render.sorter env _ (render.newer env) l).
Proof.
  pose proof (sort_Slice_sorted (render.sorter env) _ _ l newer_strict_weak) as Hs.
  induction Hs as [|x xs Hs IH Hx]; constructor; [done|].
  eapply Forall_impl; [exact Hx|]. intros y. apply not_after_newer.
Qed.

(** With a count that is not negative, the home page shows the leading
    [RecentCount] notes of the sorted slice. *)
Lemma recentNotes_take r :
  0 ≤ config.RecentCount (config.Display (render.cfg r)) →
  render.recentNotes env r
  = Some (render.preview env r
          <$> take (Z.to_nat (config.RecentCount (config.Display (render.cfg r))))
                   (render.sorter env _ (render.newer env) (render.nodes r))).
Proof.
  intros Hc. unfold render.recentNotes.
  set (sorted := render.sorter env _ (render.newer env) (render.nodes r)).
  destruct (bool_decide (_ > _)) eqn:Hgt.
  - apply bool_decide_eq_true in Hgt. rewrite bool_decide_false by lia.
    rewrite Nat2Z.id. by rewrite !take_ge by lia.
  - apply bool_decide_eq_false in Hgt. by rewrite bool_decide_false by lia.
Qed.

(** The date of a note is read off the last element of its path. *)
Lemma date_2023 (a : db.Node) :
  filepath.Base (db.File a) = "20230101000000-a.org" →
  home_spec.date env a = gotime.Date 2023 1 1 0 0 0.
Proof.
  intros Ha. unfold home_spec.date, render.extractDateFromFilename.
  rewrite Ha. by vm_compute.
Qed.

Lemma date_2024 (b : db.Node) :
  filepath.Base (db.File b) = "20240101000000-b.org" →
  home_spec.date env b = gotime.Date 2024 1 1 0 0 0.
Proof.
  intros Hb. unfold home_spec.date, render.extractDateFromFilename.
  rewrite Hb. by vm_compute.
Qed.
End home.

(** C7, as the code has it.  With a [recent_count] that is not negative, the
    home page lists the leading [recent_count] notes of a rearrangement of
    the published notes in which no note stands before a note with a later
    effective date; [sort.Slice] leaves the order among notes of equal date
    open.  A [recent_count] of at least the corpus size lists the whole
    corpus, and of two notes whose files are named 20230101000000-a.org and
    20240101000000-b.org, in whatever directories, the second is listed
    first. *)
Theorem recentNotes_by_date (env : render.Env) (r : render.Renderer) :
  let count := config.RecentCount (config.Display (render.cfg r)) in
  0 ≤ count →
  ∃ sorted,
    sorted ≡ₚ render.nodes r
    ∧ StronglySorted (home_spec.not_older env) sorted
    ∧ render.recentNotes env r = Some (render.preview env r <$> take (Z.to_nat count) sorted)
    ∧ (Z.of_nat (length (render.nodes r)) ≤ count →
       render.recentNotes env r = Some (render.preview env r <$> sorted))
    ∧ (∀ a b, filepath.Base (db.File a) = "20230101000000-a.org" →
              filepath.Base (db.File b) = "20240101000000-b.org" →
              render.nodes r = [a; b] ∨ render.nodes r = [b; a] →
              2 ≤ count →
              render.recentNotes env r
              = Some [render.preview env r b; render.preview env r a]).
Proof.
  intros count Hc.
  set (sorted := render.sorter env _ (render.newer env) (render.nodes r)).
  assert (Hperm : sorted ≡ₚ render.nodes r) by apply sort_Slice_perm.
  assert (Hsorted : StronglySorted (home_spec.not_older env) sorted) by apply sorted_by_date.
  assert (Htake : render.recentNotes env r
                  = Some (render.preview env r <$> take (Z.to_nat count) sorted))
    by by apply recentNotes_take.
  assert (Hall : Z.of_nat (length (render.nodes r)) ≤ count →
                 render.recentNotes env r = Some (render.preview env r <$> sorted)).
  { intros Hlen. rewrite Htake, take_ge; [done|]. rewrite Hperm. lia. }
  exists sorted. split; [done|]. split; [done|]. split; [done|]. split; [done|].
  intros a b Ha Hb Hnodes H2.
  assert (Hab : sorted = [b; a]).
  { assert (sorted ≡ₚ [a; b]) as Hp.
    { rewrite Hperm. destruct Hnodes as [->| ->]; [done | apply Permutation_swap]. }
    apply Permutation_sym, Permutation_length_2_inv in Hp as [Hp|Hp]; [|done].
    rewrite Hp in Hsorted. apply StronglySorted_inv in Hsorted as [_ Hfa].
    apply Forall_cons in Hfa as [Hfa _]. unfold home_spec.not_older in Hfa.
    rewrite (date_2023 env a Ha), (date_2024 env b Hb) in Hfa. by vm_compute in Hfa. }
  rewrite Hall, Hab; [done|].
  destruct Hnodes as [->| ->]; simpl; lia.
Qed.

Lemma recentNotes_by_date_witness :
  let a := mkNode "a" "/roam/20230101000000-a.org" "Note a" in
  let b := mkNode "b" "/roam/daily/20240101000000-b.org" "Note b" in
  let env := sample_env range_ascending merge_sorter in
  let r := sample_renderer config.DefaultConfig [a; b] [] ∅ in
  0 ≤ config.RecentCount (config.Display (render.cfg r))
  ∧ render.recentNotes env r = Some [render.preview env r b; render.preview env r a].
Proof.
  intros a b env r. split; [done|].
  destruct (recentNotes_by_date env r) as (sorted & _ & _ & _ & _ & Hba); [done|].
  apply (Hba a b); [done | done | by left | done].
Defined.

(** C7 as stated fails from 13 notes on.  The twelve reading notes all have
    the date of June 1, 2024 and stand in the corpus in the order l, k, ..., a,
    before the one note of 2025.  [sort.Slice] partitions the slice around
    the note f, and the swaps of the partition leave f before l and put k
    last: notes of equal date do not keep their corpus order. *)
Lemma recentNotes_not_stable :
  let env := sample_env range_ascending go_sorter in
  let r := sample_renderer config.DefaultConfig thirteen_notes [] ∅ in
  render.nodes r = thirteen_notes
  ∧ db.ID <$> thirteen_notes
    = ["l"; "k"; "j"; "i"; "h"; "g"; "f"; "e"; "d"; "c"; "b"; "a"; "new"]
  ∧ Forall (λ n, home_spec.date env n = gotime.Date 2024 6 1 0 0 0) reading_notes
  ∧ (fmap (M:=list) db.ID <$> gosort.Slice (render.newer env) thirteen_notes)
    = Some ["new"; "f"; "j"; "i"; "h"; "g"; "l"; "e"; "d"; "c"; "b"; "a"; "k"]
  ∧ (fmap (M:=list) render.NotePreview.ID <$> render.recentNotes env r)
    = Some ["new"; "f"; "j"; "i"; "h"; "g"; "l"; "e"; "d"; "c"; "b"; "a"; "k"].
Proof.
  intros env r. split; [done|]. split; [done|]. split.
  - unfold reading_notes. repeat (apply Forall_cons; split; [by vm_compute|]).
    apply Forall_nil_2.
  - split; by vm_compute.
Qed.

(** ** The tag lists of the graph page *)

Section string_order.
Lemma ascii_compare_spec (a b : ascii) :
  CompareSpec (a = b) (N_of_ascii a < N_of_ascii b)%N (N_of_ascii b < N_of_ascii a)%N
              (Ascii.compare a b).
Proof.
  unfold Ascii.compare. destruct (N.compare_spec (N_of_ascii a) (N_of_ascii b)) as [H|H|H];
    constructor; [|done|done].
  rewrite <- (ascii_N_embedding a), <- (ascii_N_embedding b). by rewrite H.
Qed.

Lemma string_compare_le_trans (x y z : string) :
  String.compare x y ≠ Gt → String.compare y z ≠ Gt → String.compare x z ≠ Gt.
Proof.
  revert y z. induction x as [|a x IH]; intros [|b y] [|c z]; simpl; try done.
  destruct (ascii_compare_spec a b) as [->|Hab|Hab]; [| |done].
  - destruct (ascii_compare_spec b c) as [->|Hbc|Hbc]; [apply IH|done|done].
  - destruct (ascii_compare_spec b c) as [->|Hbc|Hbc]; [| |done].
    + intros _ _. destruct (ascii_compare_spec a c) as [->|Hac|Hac]; [lia|done|lia].
    + intros _ _. destruct (ascii_compare_spec a c) as [->|Hac|Hac]; [lia|done|lia].
Qed.

Lemma string_ltb_false (x y : string) :
  String.ltb y x = false ↔ String.compare x y ≠ Gt.
Proof.
  unfold String.ltb. rewrite (String.compare_antisym y x).
  destruct (String.compare x y); simpl; split; congruence.
Qed.

Lemma string_ltb_strict_weak : strict_weak String.ltb.
Proof.
  split.
  - intros x y H. apply string_ltb_false. unfold String.ltb in H.
    destruct (String.compare x y); simpl in *; congruence.
  - intros x y z. rewrite !string_ltb_false. apply string_compare_le_trans.
Qed.

Lemma string_ltb_of_ne (x y : string) :
  String.ltb y x = false → x ≠ y → String.ltb x y = true.
Proof.
  intros H Hne. apply string_ltb_false in H. unfold String.ltb.
  destruct (String.compare x y) eqn:E; [|done|done].
  by apply String.compare_eq_iff in E.
Qed.
End string_order.

Section tag_counts.
Import tag_spec.

Lemma count_in_nil t : count_in [] t = 0.
Proof. done. Qed.

Lemma count_in_app l1 l2 t : count_in (l1 ++ l2) t = count_in l1 t + count_in l2 t.
Proof. unfold count_in. rewrite filter_app, length_app. lia. Qed.

Lemma count_in_singleton x t : count_in [x] t = if decide (x = t) then 1 else 0.
Proof. unfold count_in. rewrite filter_cons. by case_decide. Qed.

Lemma count_in_nonneg l t : 0 ≤ count_in l t.
Proof. unfold count_in. lia. Qed.

Lemma count_in_pos l t : 0 < count_in l t ↔ t ∈ l.
Proof.
  unfold count_in. split.
  - intros H. destruct (filter (λ x, x = t) l) as [|x xs] eqn:E; [simpl in H; lia|].
    assert (x ∈ filter (λ x, x = t) l) as Hx by (rewrite E; by left).
    by apply list_elem_of_filter in Hx as [-> ?].
  - intros H. assert (t ∈ filter (λ x, x = t) l) as Hx by by apply list_elem_of_filter.
    destruct (filter (λ x, x = t) l); [by apply elem_of_nil in Hx | simpl; lia].
Qed.

Lemma count_in_perm l1 l2 t : l1 ≡ₚ l2 → count_in l1 t = count_in l2 t.
Proof. intros H. unfold count_in. by rewrite H. Qed.

Lemma tally_empty : tally ∅ (count_in []).
Proof. intros t. rewrite lookup_empty, count_in_nil. by rewrite decide_False by lia. Qed.

Lemma tally_incr m l x : tally m (count_in l) → tally (incr x m) (count_in (l ++ [x])).
Proof.
  intros Hm t. unfold incr, index. rewrite lookup_insert, count_in_app, count_in_singleton.
  pose proof (count_in_nonneg l t). pose proof (count_in_nonneg l x).
  case_decide as Hx.
  - subst x. rewrite (Hm t).
    repeat case_decide; simpl; first [lia | f_equal; lia].
  - rewrite (Hm t). rewrite Z.add_0_r. done.
Qed.

Lemma tally_tags tags : ∀ m l,
  tally m (count_in l) → tally (foldl (λ counts t, incr t counts) m tags) (count_in (l ++ tags)).
Proof.
  induction tags as [|x tags IH]; intros m l Hm; simpl.
  - by rewrite app_nil_r.
  - replace (l ++ x :: tags) with ((l ++ [x]) ++ tags) by by rewrite <- app_assoc.
    apply IH. by apply tally_incr.
Qed.

Lemma tally_entries (kvs : list (string * list string)) : ∀ m l,
  tally m (count_in l) →
  tally (foldl (λ counts kv, foldl (λ counts t, incr t counts) counts kv.2) m kvs)
        (count_in (l ++ kvs ≫= snd)).
Proof.
  induction kvs as [|kv kvs IH]; intros m l Hm; simpl.
  - by rewrite app_nil_r.
  - csimpl. rewrite app_assoc. apply IH. by apply tally_tags.
Qed.

(** [tagCounts] holds every tag that occurs, with its occurrence count. *)
Lemma tally_tagCounts env r :
  tally (render.tagCounts_of env r) (occurrences (render.nodeTags r)).
Proof.
  intros t. unfold render.tagCounts_of.
  rewrite (tally_entries _ ∅ [] tally_empty t). simpl.
  unfold occurrences, all_tags, range_map.
  by rewrite (count_in_perm _ (map_to_list (render.nodeTags r) ≫= snd))
    by (by rewrite (range_order_perm (render.ro env))).
Qed.

Lemma elem_of_tagCounts env r t c :
  (t, c) ∈ map_to_list (render.tagCounts_of env r)
  ↔ c = occurrences (render.nodeTags r) t ∧ 0 < c.
Proof.
  rewrite elem_of_map_to_list, (tally_tagCounts env r t).
  case_decide; split; [by intros [= <-] | by intros [-> _] | done | intros [-> ?]; lia].
Qed.

Lemma more_frequent_strict_weak : strict_weak render.more_frequent.
Proof.
  split; unfold render.more_frequent.
  - intros x y H. apply Z.ltb_lt in H. apply Z.ltb_ge. lia.
  - intros x y z H1 H2. apply Z.ltb_ge in H1, H2. apply Z.ltb_ge. lia.
Qed.

(** A sorted slice stays sorted for a relation that holds wherever the
    first one does between members of the slice. *)
Lemma StronglySorted_impl_elem {A} (R1 R2 : relation A) (l : list A) :
  (∀ x y, x ∈ l → y ∈ l → R1 x y → R2 x y) →
  StronglySorted R1 l → StronglySorted R2 l.
Proof.
  intros Himpl Hs. induction Hs as [|x xs Hs IH Hx]; constructor.
  - apply IH. intros a b Ha Hb. apply Himpl; by right.
  - apply Forall_forall. intros y Hy.
    apply Himpl; [by left | by right |].
    by apply (proj1 (Forall_forall _ _) Hx).
Qed.

Lemma StronglySorted_NoDup_strict {A} (R : relation A) (l : list A) :
  NoDup l → StronglySorted R l → StronglySorted (λ x y, R x y ∧ x ≠ y) l.
Proof.
  intros Hnd Hs. induction Hs as [|x xs Hs IH Hx]; constructor.
  - apply IH. by apply NoDup_cons in Hnd as [_ ?].
  - apply NoDup_cons in Hnd as [Hnotin _].
    apply Forall_forall. intros y Hy. split.
    + by apply (proj1 (Forall_forall _ _) Hx).
    + intros ->. done.
Qed.
End tag_counts.

(** C8, as the code has it.  The top tags are the first ten entries (all of
    them when there are fewer) of a ranking of the distinct tags of the tag
    map in which no tag stands before a tag that occurs more often; the
    order among tags that occur equally often is left open by the map
    iteration and by [sort.Slice].  The list of all tags holds every
    distinct tag once, in ascending byte-wise order. *)
Theorem tag_lists (env : render.Env) (r : render.Renderer) :
  let occ := tag_spec.occurrences (render.nodeTags r) in
  let ranked := fst <$> render.tagList_of env r in
  render.topTags env r = take 10 ranked
  ∧ NoDup ranked
  ∧ (∀ t, t ∈ ranked ↔ 0 < occ t)
  ∧ StronglySorted (λ s t, occ t ≤ occ s) ranked
  ∧ StronglySorted (λ s t, String.ltb s t = true) (render.allTags env r)
  ∧ (∀ t, t ∈ render.allTags env r ↔ 0 < occ t).
Proof.
  intros occ ranked.
  set (counts := render.tagCounts_of env r).
  assert (Hperm : render.tagList_of env r ≡ₚ map_to_list counts).
  { unfold render.tagList_of, range_map.
    by rewrite sort_Slice_perm, (range_order_perm (render.ro env)). }
  assert (Hkeys : ∀ (l : list (string * Z)) t,
            l ≡ₚ map_to_list counts → t ∈ l.*1 ↔ 0 < occ t).
  { intros l t Hl. rewrite Hl, list_elem_of_fmap. split.
    - intros ([t' c] & -> & Hin). apply elem_of_tagCounts in Hin as [-> ?]. done.
    - intros Hpos. exists (t, occ t). split; [done|]. by apply elem_of_tagCounts. }
  split; [|split; [|split; [|split; [|split]]]].
  - unfold render.topTags. apply fmap_take.
  - unfold ranked. rewrite Hperm. apply NoDup_fst_map_to_list.
  - intros t. by apply Hkeys.
  - unfold ranked.
    apply (StronglySorted_fmap fst (λ a b : string * Z, occ b.1 ≤ occ a.1)); [done|].
    apply (StronglySorted_impl_elem (not_after render.more_frequent)).
    + intros [s c] [t d] Hs Ht. rewrite Hperm in Hs, Ht.
      apply elem_of_tagCounts in Hs as [-> _]. apply elem_of_tagCounts in Ht as [-> _].
      unfold not_after, render.more_frequent. simpl. fold occ.
      intros H. apply Z.ltb_ge in H. done.
    + apply sort_Slice_sorted, more_frequent_strict_weak.
  - unfold render.allTags.
    set (keys := (range_map (render.ro env) counts).*1).
    assert (Hk : keys ≡ₚ (map_to_list counts).*1).
    { unfold keys, range_map. by rewrite (range_order_perm (render.ro env)). }
    assert (Hsk : render.sorter env _ String.ltb keys ≡ₚ (map_to_list counts).*1).
    { etrans; [apply sort_Slice_perm | exact Hk]. }
    apply (StronglySorted_impl_elem (λ x y, not_after String.ltb x y ∧ x ≠ y)).
    + intros x y _ _ [Hxy Hne]. by apply string_ltb_of_ne.
    + apply StronglySorted_NoDup_strict.
      * change (NoDup (render.sorter env _ String.ltb keys)).
        rewrite Hsk. apply NoDup_fst_map_to_list.
      * apply sort_Slice_sorted, string_ltb_strict_weak.
  - intros t. unfold render.allTags. rewrite sort_Slice_perm.
    apply Hkeys. unfold range_map. apply range_order_perm.
Qed.

(** C8 as stated fails on ties: a single note carries the tags a and b, in
    that order, so a is the tag seen first and both occur once; when the
    iteration over the count map reaches b first, the top tags are b, a. *)
Lemma topTags_tie_not_first_observed :
  let env := sample_env range_descending merge_sorter in
  let r := sample_renderer config.DefaultConfig [mkNode "n" "n.org" "n"] []
             {[ "n" := ["a"; "b"] ]} in
  tag_spec.all_tags (render.nodeTags r) = ["a"; "b"]
  ∧ tag_spec.occurrences (render.nodeTags r) "a" = tag_spec.occurrences (render.nodeTags r) "b"
  ∧ render.topTags env r = ["b"; "a"].
Proof. intros env r. split; [by vm_compute|]. split; by vm_compute. Qed.

(** * Further properties of the graph engine *)

Section more_traversal.
Implicit Types (links : list db.Link) (focal : string) (D : Z).

(** The visited set in terms of hop distance, for use below. *)
Lemma bfs_visited_iff_within focal D links v :
  0 ≤ D → v ∈ graph.bfs_visited focal D links ↔ spec.within links focal D v.
Proof.
  intros HD. unfold graph.bfs_visited, graph.bfs_final.
  destruct (bfs_inv_loop links focal D (graph.bfs_fuel links) [] (graph.bfs_init focal) 0
              (bfs_inv_init links focal D HD)) as (done & k & Hinv).
  pose proof (bfs_final_queue focal D links) as Hq. unfold graph.bfs_final in Hq.
  pose proof (bfs_inv_complete _ _ _ _ _ _ Hinv Hq) as Hcomplete.
  destruct Hinv as [Hv Hs _ _ _ _]. rewrite Hq, app_nil_r in *.
  rewrite Hv. split.
  - intros [d Hin]. apply Hs in Hin as [Hd Hhops]. exists (Z.to_nat d). split; [lia | done].
  - intros (n & Hn & Hhops). destruct (Hcomplete n v Hhops Hn) as (d & Hin & _). by exists d.
Qed.

(** With a depth of zero or less the focal id is never expanded. *)
Lemma bfs_visited_nonpositive focal D links :
  D ≤ 0 → graph.bfs_visited focal D links = {[focal]}.
Proof.
  intros HD. unfold graph.bfs_visited, graph.bfs_final, graph.bfs_fuel. simpl.
  unfold graph.bfs_body. simpl. rewrite bool_decide_true by lia.
  by destruct (length links + (length links + 0))%nat.
Qed.

Lemma focal_visited focal D links : focal ∈ graph.bfs_visited focal D links.
Proof.
  destruct (decide (0 ≤ D)) as [HD|HD].
  - apply bfs_visited_iff_within; [done|]. exists 0%nat. split; [lia | constructor].
  - rewrite bfs_visited_nonpositive by lia. by apply elem_of_singleton.
Qed.

Lemma linked_sym links u w : spec.linked links u w → spec.linked links w u.
Proof. intros (l & Hin & H). exists l. split; [done | tauto]. Qed.

Lemma hops_prepend links a b c n :
  spec.linked links a b → spec.hops links b n c → spec.hops links a (S n) c.
Proof.
  intros Hab Hbc. induction Hbc as [|n u w Hbu IH Huw].
  - apply spec.hops_step with a; [constructor | done].
  - by apply spec.hops_step with u.
Qed.

Lemma hops_sym links a b n : spec.hops links a n b → spec.hops links b n a.
Proof.
  intros Hab. induction Hab as [|n u w Hau IH Huw]; [constructor|].
  apply hops_prepend with u; [by apply linked_sym | done].
Qed.
End more_traversal.

(** X3.  The ego graph grows with the depth: whatever is visited at one depth is
    visited at every larger depth, negative depths included. *)
Theorem LocalGraph_visited_monotone (focal : string) (D D' : Z) (links : list db.Link) :
  D ≤ D' → graph.bfs_visited focal D links ⊆ graph.bfs_visited focal D' links.
Proof.
  intros Hle v Hv. destruct (decide (0 ≤ D)) as [HD|HD].
  - apply bfs_visited_iff_within; [lia|].
    apply bfs_visited_iff_within in Hv as (n & Hn & Hhops); [|done].
    exists n. split; [lia | done].
  - rewrite bfs_visited_nonpositive in Hv by lia.
    apply elem_of_singleton in Hv as ->. apply focal_visited.
Qed.

Lemma LocalGraph_visited_monotone_witness :
  1 ≤ 2 ∧ graph.bfs_visited "A" 1 chain_ABC ⊆ graph.bfs_visited "A" 2 chain_ABC.
Proof. split; [lia|]. apply LocalGraph_visited_monotone. lia. Defined.

(** X4.  A depth of zero or less, negative values included, visits the focal id
    alone: the local graph is the focal node if it is published and has no
    node otherwise. *)
Theorem LocalGraph_nonpositive_depth (ro : RangeOrder) (focal : string) (D : Z)
    (nodes : list db.Node) (links : list db.Link) (nodeTags : gmap string (list string)) :
  D ≤ 0 →
  graph.bfs_visited focal D links = {[focal]}
  ∧ graph.ID <$> graph.Nodes (graph.LocalGraph ro focal D nodes links nodeTags)
    = if decide (focal ∈ db.ID <$> nodes) then [focal] else [].
Proof.
  intros HD. split; [by apply bfs_visited_nonpositive|].
  rewrite LocalGraph_node_ids, bfs_visited_nonpositive by done.
  unfold range_set. rewrite elements_singleton.
  assert (ro string [focal] = [focal]) as ->.
  { apply Permutation_singleton_r, range_order_perm. }
  rewrite filter_cons. by case_decide.
Qed.

Lemma LocalGraph_nonpositive_depth_witness :
  -1 ≤ 0
  ∧ graph.bfs_visited "B" (-1) chain_ABC = {["B"]}
  ∧ graph.ID <$> graph.Nodes (graph.LocalGraph range_ascending "B" (-1)
                                [mkNode "A" "a.org" "a"] chain_ABC ∅)
    = if decide ("B" ∈ db.ID <$> [mkNode "A" "a.org" "a"]) then ["B"] else [].
Proof.
  split; [lia|].
  apply (LocalGraph_nonpositive_depth range_ascending "B" (-1) [mkNode "A" "a.org" "a"]
           chain_ABC ∅). lia.
Defined.

(** X5.  Links are followed in both directions, so being within reach is mutual:
    [v] is in the ego graph of [u] exactly when [u] is in the ego graph of
    [v] at the same depth. *)
Theorem LocalGraph_visited_symmetric (u v : string) (D : Z) (links : list db.Link) :
  v ∈ graph.bfs_visited u D links ↔ u ∈ graph.bfs_visited v D links.
Proof.
  destruct (decide (0 ≤ D)) as [HD|HD].
  - rewrite !bfs_visited_iff_within by done.
    split; intros (n & Hn & Hhops); exists n; (split; [done | by apply hops_sym]).
  - rewrite !bfs_visited_nonpositive by lia. rewrite !elem_of_singleton. split; congruence.
Qed.

Section more_local_graph.
Implicit Types (nodes : list db.Node) (links : list db.Link)
               (nodeTags : gmap string (list string)) (ro : RangeOrder).

(** Every node that [LocalGraph] emits comes from the entry of the node
    table for a visited id. *)
Lemma elem_of_LocalGraph_Nodes ro focal D nodes links nodeTags gn :
  gn ∈ graph.Nodes (graph.LocalGraph ro focal D nodes links nodeTags) →
  ∃ id n, id ∈ graph.bfs_visited focal D links
          ∧ graph.nodeMap_of nodes !! id = Some n
          ∧ gn = {| graph.ID := db.ID n; graph.Title := db.Title n;
                    graph.Tags := index [] nodeTags id;
                    graph.LinkCount :=
                      index 0 (graph.count_links (graph.bfs_visited focal D links) links)
                            id |}.
Proof.
  unfold graph.LocalGraph. cbn [graph.Nodes].
  erewrite (foldl_append _
    (λ id, match graph.nodeMap_of nodes !! id with
           | Some n => [{| graph.ID := db.ID n; graph.Title := db.Title n;
                           graph.Tags := index [] nodeTags id;
                           graph.LinkCount :=
                             index 0 (graph.count_links (graph.bfs_visited focal D links)
                                        links) id |}]
           | None => []
           end)).
  2:{ intros acc id. destruct (graph.nodeMap_of nodes !! id); [done|].
      by rewrite app_nil_r. }
  simpl. rewrite list_elem_of_bind. intros (id & Hgn & Hid).
  unfold range_set in Hid. rewrite (range_order_perm ro), elem_of_elements in Hid.
  destruct (graph.nodeMap_of nodes !! id) as [n|] eqn:E; [|by apply elem_of_nil in Hgn].
  apply list_elem_of_singleton in Hgn. by exists id, n.
Qed.

Lemma LocalGraph_Links_add ro focal D nodes links nodeTags :
  graph.Links (graph.LocalGraph ro focal D nodes links nodeTags)
  = graph.add_links (graph.bfs_visited focal D links) links.
Proof. done. Qed.

Lemma elem_of_LocalGraph_Links ro focal D nodes links nodeTags e :
  e ∈ graph.Links (graph.LocalGraph ro focal D nodes links nodeTags)
  ↔ ∃ l, l ∈ links ∧ e = spec.edge_of l
         ∧ db.Source l ∈ graph.bfs_visited focal D links
         ∧ db.Target l ∈ graph.bfs_visited focal D links.
Proof.
  rewrite LocalGraph_Links, list_elem_of_fmap. setoid_rewrite list_elem_of_filter.
  naive_solver.
Qed.
End more_local_graph.

(** X6.  The ids of the nodes of a local graph are pairwise distinct, whatever the
    node list holds, and they are the visited ids that the node list knows. *)
Theorem LocalGraph_nodes_distinct (ro : RangeOrder) (focal : string) (D : Z)
    (nodes : list db.Node) (links : list db.Link) (nodeTags : gmap string (list string)) :
  let ids := graph.ID <$> graph.Nodes (graph.LocalGraph ro focal D nodes links nodeTags) in
  NoDup ids
  ∧ ∀ id, id ∈ ids ↔ id ∈ graph.bfs_visited focal D links ∧ id ∈ db.ID <$> nodes.
Proof.
  intros ids. unfold ids. split.
  - rewrite LocalGraph_node_ids. apply NoDup_filter. unfold range_set.
    rewrite (range_order_perm ro). apply NoDup_elements.
  - intros id. apply elem_of_LocalGraph_node_ids.
Qed.

(** X7.  The [linkCount] of a node of a local graph is its degree in the edge
    list of that same local graph: a local degree, in which a link from the
    node to itself counts twice. *)
Theorem LocalGraph_linkCount (ro : RangeOrder) (focal : string) (D : Z)
    (nodes : list db.Node) (links : list db.Link) (nodeTags : gmap string (list string))
    (gn : graph.GraphNode) :
  let g := graph.LocalGraph ro focal D nodes links nodeTags in
  gn ∈ graph.Nodes g →
  graph.LinkCount gn = spec.degree (graph.Links g) (graph.ID gn).
Proof.
  intros g Hgn. apply elem_of_LocalGraph_Nodes in Hgn as (id & n & _ & Hn & ->).
  apply nodeMap_of_Some in Hn as [-> _]. cbn [graph.LinkCount graph.ID].
  unfold g. rewrite LocalGraph_Links_add. apply count_links_degree.
Qed.

Lemma LocalGraph_linkCount_witness :
  let g := graph.LocalGraph range_ascending "B" 1
             [mkNode "A" "a.org" "a"; mkNode "B" "b.org" "b"; mkNode "C" "c.org" "c"]
             chain_ABC ∅ in
  let gn := {| graph.ID := "B"; graph.Title := "b"; graph.Tags := []; graph.LinkCount := 2 |} in
  gn ∈ graph.Nodes g ∧ graph.LinkCount gn = spec.degree (graph.Links g) (graph.ID gn).
Proof.
  intros g gn.
  assert (Hin : gn ∈ graph.Nodes g).
  { vm_compute. apply list_elem_of_In. simpl. tauto. }
  split; [exact Hin|].
  exact (LocalGraph_linkCount range_ascending "B" 1 _ chain_ABC ∅ gn Hin).
Defined.

(** X8.  A local graph is free of dangling edges exactly when every link between
    two visited ids joins published ids; in particular when no link touches
    an id outside the node list. *)
Theorem LocalGraph_edges_closed_iff (ro : RangeOrder) (focal : string) (D : Z)
    (nodes : list db.Node) (links : list db.Link) (nodeTags : gmap string (list string)) :
  let visited := graph.bfs_visited focal D links in
  let ids := db.ID <$> nodes in
  (spec.edges_closed (graph.LocalGraph ro focal D nodes links nodeTags)
   ↔ ∀ l, l ∈ links → db.Source l ∈ visited → db.Target l ∈ visited →
          db.Source l ∈ ids ∧ db.Target l ∈ ids)
  ∧ ((∀ l, l ∈ links → db.Source l ∈ ids ∧ db.Target l ∈ ids) →
     spec.edges_closed (graph.LocalGraph ro focal D nodes links nodeTags)).
Proof.
  intros visited ids.
  assert (Hiff : spec.edges_closed (graph.LocalGraph ro focal D nodes links nodeTags)
            ↔ ∀ l, l ∈ links → db.Source l ∈ visited → db.Target l ∈ visited →
                   db.Source l ∈ ids ∧ db.Target l ∈ ids).
  { unfold spec.edges_closed. split.
    - intros Hc l Hl Hs Ht.
      destruct (Hc (spec.edge_of l)) as [H1 H2].
      { apply elem_of_LocalGraph_Links. by exists l. }
      apply elem_of_LocalGraph_node_ids in H1 as [_ ?].
      apply elem_of_LocalGraph_node_ids in H2 as [_ ?]. done.
    - intros Hall e He. apply elem_of_LocalGraph_Links in He as (l & Hl & -> & Hs & Ht).
      destruct (Hall l Hl Hs Ht). simpl.
      split; by apply elem_of_LocalGraph_node_ids. }
  split; [done|]. intros Hall. apply Hiff. intros l Hl _ _. by apply Hall.
Qed.

Lemma LocalGraph_edges_closed_iff_witness :
  let nodes := [mkNode "A" "a.org" "a"; mkNode "B" "b.org" "b"; mkNode "C" "c.org" "c"] in
  (∀ l, l ∈ chain_ABC → db.Source l ∈ db.ID <$> nodes ∧ db.Target l ∈ db.ID <$> nodes)
  ∧ spec.edges_closed (graph.LocalGraph range_ascending "A" 2 nodes chain_ABC ∅).
Proof.
  intros nodes.
  assert (Hall : ∀ l, l ∈ chain_ABC →
                      db.Source l ∈ db.ID <$> nodes ∧ db.Target l ∈ db.ID <$> nodes).
  { intros l Hl. apply list_elem_of_In in Hl. simpl in Hl.
    destruct Hl as [<-|[<-|[]]]; split; apply list_elem_of_In; simpl; tauto. }
  split; [exact Hall|].
  exact (proj2 (LocalGraph_edges_closed_iff range_ascending "A" 2 nodes chain_ABC ∅) Hall).
Defined.

(** X9.  A local graph lies inside the global graph of the same nodes and links:
    its node ids are node ids of the global graph, and each of its edges
    that joins two of its own nodes is an edge of the global graph. *)
Theorem LocalGraph_within_BuildGraph (ro : RangeOrder) (focal : string) (D : Z)
    (nodes : list db.Node) (links : list db.Link) (nodeTags : gmap string (list string)) :
  let local := graph.LocalGraph ro focal D nodes links nodeTags in
  let global := graph.BuildGraph nodes links nodeTags in
  (∀ id, id ∈ graph.ID <$> graph.Nodes local → id ∈ graph.ID <$> graph.Nodes global)
  ∧ (∀ e, e ∈ graph.Links local →
          graph.Source e ∈ graph.ID <$> graph.Nodes local →
          graph.Target e ∈ graph.ID <$> graph.Nodes local →
          e ∈ graph.Links global).
Proof.
  intros local global. split.
  - intros id Hid. apply elem_of_LocalGraph_node_ids in Hid as [_ Hid].
    unfold global. by rewrite BuildGraph_node_ids.
  - intros e He Hs Ht.
    apply elem_of_LocalGraph_Links in He as (l & Hl & -> & _ & _).
    apply elem_of_LocalGraph_node_ids in Hs as [_ Hs].
    apply elem_of_LocalGraph_node_ids in Ht as [_ Ht].
    unfold global. rewrite BuildGraph_Links. unfold spec.qualifying_edges.
    apply list_elem_of_fmap. exists l. split; [done|].
    apply list_elem_of_filter. by split.
Qed.

Lemma LocalGraph_within_BuildGraph_witness :
  let nodes := [mkNode "A" "a.org" "a"; mkNode "B" "b.org" "b"] in
  "A" ∈ graph.ID <$> graph.Nodes (graph.LocalGraph range_ascending "A" 1 nodes chain_ABC ∅)
  ∧ "A" ∈ graph.ID <$> graph.Nodes (graph.BuildGraph nodes chain_ABC ∅).
Proof.
  intros nodes.
  assert (HA : "A" ∈ graph.ID <$> graph.Nodes
                       (graph.LocalGraph range_ascending "A" 1 nodes chain_ABC ∅)).
  { vm_compute. by left. }
  split; [exact HA|].
  exact (proj1 (LocalGraph_within_BuildGraph range_ascending "A" 1 nodes chain_ABC ∅) "A" HA).
Defined.

(** X1.  The global graph never has a dangling edge: both ends of each of its
    edges are ids of its own nodes, whatever ids the links mention. *)
Theorem BuildGraph_no_dangling_edge (nodes : list db.Node) (links : list db.Link)
    (nodeTags : gmap string (list string)) :
  spec.edges_closed (graph.BuildGraph nodes links nodeTags)
  ∧ graph.Links (graph.BuildGraph nodes links nodeTags) = spec.qualifying_edges nodes links.
Proof. split; [apply BuildGraph_edges_closed | apply BuildGraph_Links]. Qed.

Section handshake.
Lemma sum_fmap_add {A} (f g : A → Z) (l : list A) :
  foldr Z.add 0 ((λ x, f x + g x) <$> l)
  = foldr Z.add 0 (f <$> l) + foldr Z.add 0 (g <$> l).
Proof. induction l as [|x l IH]; csimpl; [done|]. rewrite IH. lia. Qed.

(** Over a list without repetition, exactly one entry equals [x]. *)
Lemma sum_indicator (ids : list string) (x : string) :
  NoDup ids →
  foldr Z.add 0 ((λ id, if decide (x = id) then 1 else 0) <$> ids)
  = if decide (x ∈ ids) then 1 else 0.
Proof.
  induction 1 as [|id ids Hid Hnd IH]; csimpl; [done|].
  rewrite IH. repeat case_decide; subst; try lia; set_solver.
Qed.

Lemma degree_cons (e : graph.GraphLink) (edges : list graph.GraphLink) (id : string) :
  spec.degree (e :: edges) id
  = spec.degree edges id
    + ((if decide (graph.Source e = id) then 1 else 0)
       + (if decide (graph.Target e = id) then 1 else 0)).
Proof. unfold spec.degree. rewrite !filter_cons. repeat case_decide; simpl; lia. Qed.

Lemma sum_degree (ids : list string) (edges : list graph.GraphLink) :
  NoDup ids →
  (∀ e, e ∈ edges → graph.Source e ∈ ids ∧ graph.Target e ∈ ids) →
  foldr Z.add 0 ((spec.degree edges) <$> ids) = 2 * Z.of_nat (length edges).
Proof.
  intros Hnd. induction edges as [|e edges IH]; intros Hin.
  - clear. induction ids as [|i ids IHi]; csimpl; [done|]. by rewrite IHi.
  - rewrite (list_fmap_ext _ (λ id, spec.degree edges id
               + ((if decide (graph.Source e = id) then 1 else 0)
                  + (if decide (graph.Target e = id) then 1 else 0))) ids)
      by (intros; apply degree_cons).
    rewrite !sum_fmap_add, IH by (intros e' He'; apply Hin; by right).
    rewrite !sum_indicator by done.
    destruct (Hin e) as [Hs Ht]; [by left|].
    rewrite !decide_True by done. simpl length. lia.
Qed.
End handshake.

(** X2.  When the node ids are pairwise distinct, the [linkCount] fields of the
    global graph add up to twice the number of its edges: every emitted edge
    is counted once at each end. *)
Theorem BuildGraph_linkCount_total (nodes : list db.Node) (links : list db.Link)
    (nodeTags : gmap string (list string)) :
  NoDup (db.ID <$> nodes) →
  let g := graph.BuildGraph nodes links nodeTags in
  graph_spec.total_linkCount g = 2 * Z.of_nat (length (graph.Links g)).
Proof.
  intros Hnd g. unfold graph_spec.total_linkCount, g.
  rewrite BuildGraph_Nodes, <- list_fmap_compose.
  rewrite (list_fmap_ext _ (spec.degree (graph.Links (graph.BuildGraph nodes links nodeTags))
                            ∘ db.ID) nodes).
  2:{ intros i n _. simpl. apply count_links_degree. }
  rewrite list_fmap_compose. apply sum_degree; [done|].
  intros e He. pose proof (BuildGraph_edges_closed nodes links nodeTags e He) as Hc.
  by rewrite BuildGraph_node_ids in Hc.
Qed.

Lemma BuildGraph_linkCount_total_witness :
  let nodes := [mkNode "A" "a.org" "a"; mkNode "B" "b.org" "b"] in
  let links := [mkLink "A" "A"; mkLink "A" "B"; mkLink "B" "Z"] in
  NoDup (db.ID <$> nodes)
  ∧ graph_spec.total_linkCount (graph.BuildGraph nodes links ∅)
    = 2 * Z.of_nat (length (graph.Links (graph.BuildGraph nodes links ∅))).
Proof.
  intros nodes links.
  assert (Hnd : NoDup (db.ID <$> nodes)).
  { apply NoDup_ListNoDup. simpl. repeat constructor; simpl; intuition discriminate. }
  split; [exact Hnd|]. exact (BuildGraph_linkCount_total nodes links ∅ Hnd).
Defined.

(** * Further properties of the site assembly *)

(** X10.  Filtering twice changes nothing: no published node is excluded by the
    configuration that published it. *)
Theorem filterNodes_idempotent (env : render.Env) (c : config.Config)
    (nodes : list db.Node) (nodeTags : gmap string (list string)) :
  render.filterNodes env c (render.filterNodes env c nodes nodeTags) nodeTags
  = render.filterNodes env c nodes nodeTags.
Proof.
  rewrite !filterNodes_eq_filter, list_filter_filter.
  apply list_filter_iff. intros n. tauto.
Qed.

(** X11.  With no excluded tag, id or file pattern, every loaded node is
    published. *)
Theorem filterNodes_nothing_excluded (env : render.Env) (c : config.Config)
    (nodes : list db.Node) (nodeTags : gmap string (list string)) :
  config.Tags (config.Exclude c) = [] →
  config.IDs (config.Exclude c) = [] →
  config.Files (config.Exclude c) = [] →
  render.filterNodes env c nodes nodeTags = nodes.
Proof.
  intros Ht Hi Hf. rewrite filterNodes_eq_filter.
  induction nodes as [|n nodes IH]; [done|].
  rewrite filter_cons, IH, decide_True; [done|].
  unfold filter_spec.excluded. rewrite Ht, Hi, Hf.
  intros [H|[H|H]].
  - by apply elem_of_nil in H.
  - apply Exists_exists in H as (t & _ & H). by apply elem_of_nil in H.
  - by apply Exists_nil in H.
Qed.

Lemma filterNodes_nothing_excluded_witness :
  let c := {| config.Site := config.Site config.DefaultConfig;
              config.Paths := config.Paths config.DefaultConfig;
              config.Exclude := {| config.Tags := []; config.Files := []; config.IDs := [] |};
              config.Display := config.Display config.DefaultConfig |} in
  let nodes := [mkNode "A" "a.org" "a"; mkNode "B" "b.org" "b"] in
  config.Tags (config.Exclude c) = []
  ∧ render.filterNodes (sample_env range_ascending merge_sorter) c nodes
      {[ "A" := ["draft"] ]} = nodes.
Proof.
  intros c nodes. split; [reflexivity|].
  exact (filterNodes_nothing_excluded (sample_env range_ascending merge_sorter) c nodes
           {[ "A" := ["draft"] ]} eq_refl eq_refl eq_refl).
Defined.

Section more_home.
Context (env : render.Env).

(** The count after the clamp of [generateHome]. *)
Lemma recentNotes_cases r :
  let count := config.RecentCount (config.Display (render.cfg r)) in
  let sorted := render.sorter env _ (render.newer env) (render.nodes r) in
  render.recentNotes env r
  = if decide (count < 0) then None
    else Some (render.preview env r <$> take (Z.to_nat count) sorted).
Proof.
  intros count sorted. case_decide as Hc.
  - unfold render.recentNotes. fold count.
    rewrite (bool_decide_false (count > _)) by lia. by rewrite bool_decide_true by done.
  - apply recentNotes_take. fold count. lia.
Qed.
End more_home.

(** X12.  The home page is built unless [recent_count] is negative, in which case
    allocating the list panics, even for an empty corpus.  Otherwise it shows
    as many notes as [recent_count] or the corpus allows, each of them a
    published note. *)
Theorem recentNotes_length (env : render.Env) (r : render.Renderer) :
  let count := config.RecentCount (config.Display (render.cfg r)) in
  (render.recentNotes env r = None ↔ count < 0)
  ∧ ∀ notes, render.recentNotes env r = Some notes →
      Z.of_nat (length notes) = Z.min count (Z.of_nat (length (render.nodes r)))
      ∧ ∀ p, p ∈ notes → ∃ n, n ∈ render.nodes r ∧ p = render.preview env r n.
Proof.
  intros count. rewrite recentNotes_cases. fold count. case_decide as Hc.
  - split; [done|]. by intros notes [=].
  - split; [split; [done | lia]|]. intros notes [= <-]. split.
    + rewrite length_fmap, length_take, (Permutation_length (sort_Slice_perm _ _ _ _)). lia.
    + intros p Hp. apply list_elem_of_fmap in Hp as (n & -> & Hn).
      exists n. split; [|done].
      apply elem_of_take in Hn as (i & Hi & _).
      apply list_elem_of_lookup_2 in Hi. by rewrite sort_Slice_perm in Hi.
Qed.

Lemma recentNotes_length_witness :
  let env := sample_env range_ascending merge_sorter in
  let r := sample_renderer config.DefaultConfig
             [mkNode "A" "a.org" "a"; mkNode "B" "b.org" "b"] [] ∅ in
  ∃ notes, render.recentNotes env r = Some notes
           ∧ Z.of_nat (length notes)
             = Z.min (config.RecentCount (config.Display (render.cfg r)))
                     (Z.of_nat (length (render.nodes r))).
Proof.
  intros env r.
  destruct (render.recentNotes env r) as [notes|] eqn:E; [|by vm_compute in E].
  exists notes. split; [done|].
  exact (proj1 (proj2 (recentNotes_length env r) notes E)).
Defined.

(** X13.  A failed load leaves the renderer as it was and ends the build with the
    error of the load; nothing else is run. *)
Theorem Build_load_failure (env : render.Env) (r : render.Renderer) (e : render.error env) :
  (render.loadData env r).1 = Some e →
  (render.loadData env r).2 = r ∧ render.Build env r = Some (Some e).
Proof.
  unfold render.Build. unfold render.loadData.
  destruct (render.db_Open env _); simpl; [by intros [= ->]|].
  destruct (render.db_LoadNodes env); simpl; [by intros [= ->]|].
  destruct (render.db_LoadTags env); simpl; [by intros [= ->]|].
  destruct (render.db_LoadLinks env); simpl; [by intros [= ->]|].
  done.
Qed.

Lemma Build_load_failure_witness :
  let r := render.NewRenderer config.DefaultConfig in
  (render.loadData offline_env r).1
  = Some "failed to open database: unable to open database file"
  ∧ (render.loadData offline_env r).2 = r
  ∧ render.Build offline_env r
    = Some (Some "failed to open database: unable to open database file").
Proof.
  intros r. split; [reflexivity|].
  exact (Build_load_failure offline_env r _ eq_refl).
Defined.

(** X14.  A negative [recent_count] makes the build panic in [generateHome], once
    the corpus is loaded and the output directory exists. *)
Theorem Build_negative_recent_count (env : render.Env) (r r' : render.Renderer) :
  render.loadData env r = (None, r') →
  render.os_MkdirAll env (config.OutputDir (config.Paths (render.cfg r'))) = None →
  config.RecentCount (config.Display (render.cfg r)) < 0 →
  render.Build env r = None.
Proof.
  intros Hload Hmk Hneg. unfold render.Build. rewrite Hload, Hmk.
  assert (render.cfg r' = render.cfg r) as Hcfg.
  { unfold render.loadData in Hload.
    destruct (render.db_Open env _); [done|].
    destruct (render.db_LoadNodes env); [done|].
    destruct (render.db_LoadTags env); [done|].
    destruct (render.db_LoadLinks env); [done|].
    by injection Hload as <-. }
  unfold render.generateHome. rewrite recentNotes_cases, Hcfg.
  by rewrite decide_True by done.
Qed.

Lemma Build_negative_recent_count_witness :
  let env := sample_env range_ascending merge_sorter in
  let c := {| config.Site := config.Site config.DefaultConfig;
              config.Paths := config.Paths config.DefaultConfig;
              config.Exclude := config.Exclude config.DefaultConfig;
              config.Display := {| config.RecentCount := -1; config.LocalGraphDepth := 2 |} |} in
  config.RecentCount (config.Display (render.cfg (render.NewRenderer c))) < 0
  ∧ render.Build env (render.NewRenderer c) = None.
Proof.
  intros env c. split; [done|].
  exact (Build_negative_recent_count env (render.NewRenderer c) _ eq_refl eq_refl eq_refl).
Defined.

Section more_load.
Context (env : render.Env).

(** What [loadData] leaves in a fresh renderer when every load succeeds. *)
Lemma loadData_fresh c r :
  render.loadData env (render.NewRenderer c) = (None, r) →
  ∃ nodes nodeTags links,
    render.db_LoadNodes env = inr nodes
    ∧ r = {| render.cfg := c;
             render.nodes := render.filterNodes env c nodes nodeTags;
             render.links := links;
             render.nodeTags := nodeTags;
             render.nodeMap :=
               foldl (λ m n, <[db.ID n := db.Title n]> m) ∅
                     (render.filterNodes env c nodes nodeTags);
             render.backlinks :=
               foldl (λ m l, <[db.Target l := index [] m (db.Target l) ++ [db.Source l]]> m)
                     ∅ links |}.
Proof.
  unfold render.loadData. intros Hload.
  destruct (render.db_Open env _); [done|].
  destruct (render.db_LoadNodes env) as [|nodes]; [done|].
  destruct (render.db_LoadTags env) as [|nodeTags]; [done|].
  destruct (render.db_LoadLinks env) as [|links]; [done|].
  injection Hload as <-. by exists nodes, nodeTags, links.
Qed.

(** The backlink map lists, for a target, the sources of the links to it in
    the order of the links. *)
Lemma backlinks_from (links : list db.Link) (m : gmap string (list string)) (t : string) :
  index [] (foldl (λ m l, <[db.Target l := index [] m (db.Target l) ++ [db.Source l]]> m)
                  m links) t
  = index [] m t ++ (db.Source <$> filter (λ l, db.Target l = t) links).
Proof.
  revert m. induction links as [|l links IH]; intros m; simpl.
  - by rewrite app_nil_r.
  - rewrite IH, filter_cons. unfold index at 1. rewrite lookup_insert.
    case_decide as Ht; simpl; [|done].
    subst t. unfold index. by rewrite <- app_assoc.
Qed.

(** With distinct ids, the title map returns each node's own title. *)
Lemma title_map_lookup (nodes : list db.Node) (m : gmap string string) (n : db.Node) :
  NoDup (db.ID <$> nodes) → n ∈ nodes →
  foldl (λ m n, <[db.ID n := db.Title n]> m) m nodes !! db.ID n = Some (db.Title n).
Proof.
  revert m. induction nodes as [|x nodes IH]; intros m Hnd Hn; [by apply elem_of_nil in Hn|].
  rewrite fmap_cons in Hnd. apply NoDup_cons in Hnd as [Hx Hnd]. simpl.
  apply elem_of_cons in Hn as [->|Hn]; [|by apply IH].
  assert (Hkeep : ∀ (l : list db.Node) (m' : gmap string string) k,
            k ∉ db.ID <$> l →
            foldl (λ m n, <[db.ID n := db.Title n]> m) m' l !! k = m' !! k).
  { clear. induction l as [|y l IHl]; intros m' k Hk; [done|]. simpl.
    rewrite fmap_cons in Hk. apply not_elem_of_cons in Hk as [Hne Hk].
    rewrite IHl by done. by rewrite lookup_insert_ne. }
  rewrite Hkeep by done. apply lookup_insert_eq.
Qed.
End more_load.

(** X15.  After a load, the backlinks shown on the page of a note are the sources
    of the links that point to it, in the order of the link list and as often
    as they occur, without the sources that are not published. *)
Theorem loadData_note_backlinks (env : render.Env) (c : config.Config)
    (r : render.Renderer) (n : db.Node) :
  render.loadData env (render.NewRenderer c) = (None, r) →
  render.LinkData.ID <$> render.note_backlinks r n
  = filter (λ id, id ∈ db.ID <$> render.nodes r)
           (db.Source <$> filter (λ l, db.Target l = db.ID n) (render.links r)).
Proof.
  intros Hload. rewrite note_backlinks_omap, (resolved_ids id), list_fmap_id.
  destruct (loadData_fresh env c r Hload) as (nodes & nodeTags & links & _ & ->). simpl.
  rewrite backlinks_from. unfold index at 1. rewrite lookup_empty. simpl.
  apply list_filter_iff. intros k. rewrite title_map_from, lookup_empty.
  split; [intros [?|[? ?]]; done | by left].
Qed.

Lemma loadData_note_backlinks_witness :
  render.loadData three_notes_env (render.NewRenderer config.DefaultConfig)
  = (None, three_notes_renderer)
  ∧ render.LinkData.ID <$> render.note_backlinks three_notes_renderer
                             (mkNode "A" "a.org" "Note A")
    = filter (λ id, id ∈ db.ID <$> render.nodes three_notes_renderer)
             (db.Source <$> filter (λ l, db.Target l = "A") (render.links three_notes_renderer)).
Proof.
  split; [reflexivity|].
  exact (loadData_note_backlinks three_notes_env config.DefaultConfig three_notes_renderer
           (mkNode "A" "a.org" "Note A") eq_refl).
Defined.

(** X16.  After a load of nodes with distinct ids, the title map holds exactly the
    published ids, each with the title of its node. *)
Theorem loadData_title_map (env : render.Env) (c : config.Config) (r : render.Renderer) :
  render.loadData env (render.NewRenderer c) = (None, r) →
  (∀ id, is_Some (render.nodeMap r !! id) ↔ id ∈ db.ID <$> render.nodes r)
  ∧ (NoDup (db.ID <$> render.nodes r) →
     ∀ n, n ∈ render.nodes r → render.nodeMap r !! db.ID n = Some (db.Title n)).
Proof.
  intros Hload.
  destruct (loadData_fresh env c r Hload) as (nodes & nodeTags & links & _ & ->). simpl.
  split.
  - intros k. rewrite title_map_from, lookup_empty.
    split; [intros [?|[? ?]]; done | by left].
  - intros Hnd n Hn. by apply title_map_lookup.
Qed.

Lemma loadData_title_map_witness :
  render.loadData three_notes_env (render.NewRenderer config.DefaultConfig)
  = (None, three_notes_renderer)
  ∧ (∀ id, is_Some (render.nodeMap three_notes_renderer !! id)
           ↔ id ∈ db.ID <$> render.nodes three_notes_renderer).
Proof.
  split; [reflexivity|].
  exact (proj1 (loadData_title_map three_notes_env config.DefaultConfig
                  three_notes_renderer eq_refl)).
Defined.

(** X17.  A note that cannot be generated never fails the run of [generateNotes]:
    once the notes directory exists the result is no error, and the notes
    reported on standard output are exactly those whose page failed, in
    corpus order with their errors. *)
Theorem generateNotes_reports_failures (env : render.Env) (r : render.Renderer) :
  let notesDir :=
    render.filepath_Join env (config.OutputDir (config.Paths (render.cfg r))) "notes" in
  render.os_MkdirAll env notesDir = None →
  (render.generateNotes env r).1 = None
  ∧ (render.generateNotes env r).2
    = omap (λ n, (λ err, (n, err)) <$> render.generateNote env r n notesDir) (render.nodes r)
  ∧ ∀ n err, (n, err) ∈ (render.generateNotes env r).2
             ↔ n ∈ render.nodes r ∧ render.generateNote env r n notesDir = Some err.
Proof.
  intros notesDir Hmk. unfold render.generateNotes. fold notesDir. rewrite Hmk. simpl.
  assert (Hw : foldl (λ warnings n,
                        match render.generateNote env r n notesDir with
                        | Some err => warnings ++ [(n, err)]
                        | None => warnings
                        end) [] (render.nodes r)
               = omap (λ n, (λ err, (n, err)) <$> render.generateNote env r n notesDir)
                      (render.nodes r)).
  { rewrite (foldl_append _
      (λ n, match render.generateNote env r n notesDir with
            | Some err => [(n, err)]
            | None => []
            end)).
    - simpl. induction (render.nodes r) as [|n ns IH]; [done|].
      csimpl. rewrite IH. by destruct (render.generateNote env r n notesDir).
    - intros acc n. destruct (render.generateNote env r n notesDir); [done|].
      by rewrite app_nil_r. }
  split; [done|]. split; [exact Hw|].
  intros n err. rewrite Hw, list_elem_of_omap. split.
  - intros (n' & Hn' & Heq).
    destruct (render.generateNote env r n' notesDir) eqn:E; simplify_eq/=. done.
  - intros [Hn Hgen]. exists n. by rewrite Hgen.
Qed.

Lemma generateNotes_reports_failures_witness :
  render.os_MkdirAll three_notes_env
    (render.filepath_Join three_notes_env
       (config.OutputDir (config.Paths (render.cfg three_notes_renderer))) "notes") = None
  ∧ (render.generateNotes three_notes_env three_notes_renderer).1 = None
  ∧ (render.generateNotes three_notes_env three_notes_renderer).2
    = [(mkNode "B" "b.org" "Note B", "b.org: parse error")].
Proof.
  split; [reflexivity|].
  destruct (generateNotes_reports_failures three_notes_env three_notes_renderer eq_refl)
    as (Herr & Hw & _).
  split; [exact Herr|]. etrans; [exact Hw|]. by vm_compute.
Defined.

Section more_tags.
Context (env : render.Env).
Implicit Types (r : render.Renderer).

Lemma tagList_perm r :
  render.tagList_of env r ≡ₚ map_to_list (render.tagCounts_of env r).
Proof.
  unfold render.tagList_of, range_map.
  by rewrite sort_Slice_perm, (range_order_perm (render.ro env)).
Qed.

Lemma elem_of_ranked r t :
  t ∈ (render.tagList_of env r).*1 ↔ 0 < tag_spec.occurrences (render.nodeTags r) t.
Proof.
  rewrite tagList_perm, list_elem_of_fmap. split.
  - intros ([t' c] & -> & Hin). by apply elem_of_tagCounts in Hin as [-> ?].
  - intros Hpos. exists (t, tag_spec.occurrences (render.nodeTags r) t).
    split; [done|]. by apply elem_of_tagCounts.
Qed.

Lemma allTags_perm r : render.allTags env r ≡ₚ (render.tagList_of env r).*1.
Proof.
  unfold render.allTags, range_map.
  by rewrite sort_Slice_perm, (range_order_perm (render.ro env)), tagList_perm.
Qed.

Lemma elem_of_allTags r t :
  t ∈ render.allTags env r ↔ 0 < tag_spec.occurrences (render.nodeTags r) t.
Proof. rewrite allTags_perm. apply elem_of_ranked. Qed.

Lemma ranked_sorted r :
  StronglySorted (λ s t, tag_spec.occurrences (render.nodeTags r) t
                         ≤ tag_spec.occurrences (render.nodeTags r) s)
                 (render.tagList_of env r).*1.
Proof.
  apply (StronglySorted_fmap fst
           (λ a b : string * Z, tag_spec.occurrences (render.nodeTags r) b.1
                                ≤ tag_spec.occurrences (render.nodeTags r) a.1)); [done|].
  apply (StronglySorted_impl_elem (not_after render.more_frequent)).
  - intros [s c] [t d] Hs Ht. rewrite tagList_perm in Hs, Ht.
    apply elem_of_tagCounts in Hs as [-> _]. apply elem_of_tagCounts in Ht as [-> _].
    unfold not_after, render.more_frequent. simpl. intros H. by apply Z.ltb_ge in H.
  - apply sort_Slice_sorted, more_frequent_strict_weak.
Qed.

(** A tag occurs in the tag map when some entry lists it. *)
Lemma occurrences_pos (nodeTags : gmap string (list string)) t :
  0 < tag_spec.occurrences nodeTags t
  ↔ ∃ id tags, nodeTags !! id = Some tags ∧ t ∈ tags.
Proof.
  unfold tag_spec.occurrences, tag_spec.all_tags. rewrite count_in_pos, list_elem_of_bind.
  split.
  - intros ([id tags] & Ht & Hin). apply elem_of_map_to_list in Hin. by exists id, tags.
  - intros (id & tags & Hl & Ht). exists (id, tags). split; [done|].
    by apply elem_of_map_to_list.
Qed.
End more_tags.

(** X18.  The top tags are at most ten, each of them is one of all tags, no tag
    left out occurs more often than a tag that is in, and when there are at
    most ten distinct tags every tag is a top tag. *)
Theorem topTags_dominate (env : render.Env) (r : render.Renderer) :
  let occ := tag_spec.occurrences (render.nodeTags r) in
  (length (render.topTags env r) ≤ 10)%nat
  ∧ (∀ t, t ∈ render.topTags env r → t ∈ render.allTags env r)
  ∧ (∀ s t, s ∈ render.topTags env r → t ∈ render.allTags env r →
            t ∉ render.topTags env r → occ t ≤ occ s)
  ∧ ((length (render.allTags env r) ≤ 10)%nat →
     ∀ t, t ∈ render.allTags env r → t ∈ render.topTags env r).
Proof.
  intros occ.
  assert (Htop : render.topTags env r = take 10 (render.tagList_of env r).*1).
  { unfold render.topTags. apply fmap_take. }
  rewrite Htop. split; [|split; [|split]].
  - rewrite length_take. lia.
  - intros t Ht. rewrite allTags_perm.
    apply elem_of_take in Ht as (i & Hi & _). by apply list_elem_of_lookup_2 in Hi.
  - intros s t Hs Ht Hnot.
    rewrite allTags_perm in Ht.
    rewrite <- (take_drop 10 (render.tagList_of env r).*1) in Ht.
    apply elem_of_app in Ht as [Ht|Ht]; [done|].
    pose proof (ranked_sorted env r) as Hsorted.
    rewrite <- (take_drop 10 (render.tagList_of env r).*1) in Hsorted.
    apply (StronglySorted_app_1_elem_of _ _ _ _ _ Hsorted Hs Ht).
  - intros Hlen t Ht. rewrite take_ge.
    + by rewrite allTags_perm in Ht.
    + by rewrite <- (Permutation_length (allTags_perm env r)).
Qed.

Lemma topTags_dominate_witness :
  let env := sample_env range_ascending merge_sorter in
  let r := sample_renderer config.DefaultConfig [mkNode "n" "n.org" "n"] []
             {[ "n" := ["a"; "b"; "a"] ]} in
  "a" ∈ render.topTags env r ∧ "a" ∈ render.allTags env r.
Proof.
  intros env r.
  assert (Ha : "a" ∈ render.topTags env r) by (vm_compute; by left).
  split; [exact Ha|].
  exact (proj1 (proj2 (topTags_dominate env r)) "a" Ha).
Defined.

Section more_tag_pages.
Implicit Types (r : render.Renderer).

(** The inner loop files the preview once for every occurrence of a tag. *)
Lemma tagNotes_inner (p : render.NotePreview.t) (tags : list string) :
  ∀ (m : gmap string (list render.NotePreview.t)) (f : string → list render.NotePreview.t),
    (∀ k, m !! k = if decide (f k = []) then None else Some (f k)) →
    ∀ k, foldl (λ tagNotes tag, <[tag := index [] tagNotes tag ++ [p]]> tagNotes) m tags !! k
         = if decide (f k ++ ((λ _, p) <$> filter (λ t, t = k) tags) = [])
           then None else Some (f k ++ ((λ _, p) <$> filter (λ t, t = k) tags)).
Proof.
  induction tags as [|t tags IH]; intros m f Hm k; simpl.
  - rewrite app_nil_r. apply Hm.
  - rewrite (IH _ (λ k, f k ++ if decide (t = k) then [p] else [])).
    + assert ((f k ++ (if decide (t = k) then [p] else []))
                ++ ((λ _, p) <$> filter (λ t, t = k) tags)
              = f k ++ ((λ _, p) <$> filter (λ t, t = k) (t :: tags))) as ->; [|done].
      rewrite filter_cons. destruct (decide (t = k)); simpl; by rewrite <- app_assoc.
    + intros k'. rewrite lookup_insert. case_decide as Ht.
      * subst k'. rewrite decide_False by (by destruct (f t)).
        f_equal. f_equal. unfold index. rewrite (Hm t). by case_decide as Hf; [rewrite Hf|].
      * rewrite app_nil_r. apply Hm.
Qed.

Lemma tagNotes_outer r (ns : list db.Node) :
  ∀ (m : gmap string (list render.NotePreview.t)) (f : string → list render.NotePreview.t),
    (∀ k, m !! k = if decide (f k = []) then None else Some (f k)) →
    ∀ k, foldl (λ tagNotes n,
                  foldl (λ tagNotes tag,
                           <[tag := index [] tagNotes tag ++ [tag_preview r n]]> tagNotes)
                        tagNotes (index [] (render.nodeTags r) (db.ID n)))
               m ns !! k
         = if decide (f k ++ (ns ≫= λ n, (λ _, tag_preview r n)
                                <$> filter (λ t, t = k)
                                      (index [] (render.nodeTags r) (db.ID n))) = [])
           then None
           else Some (f k ++ (ns ≫= λ n, (λ _, tag_preview r n)
                                <$> filter (λ t, t = k)
                                      (index [] (render.nodeTags r) (db.ID n)))).
Proof.
  induction ns as [|n ns IH]; intros m f Hm k; simpl.
  - rewrite app_nil_r. apply Hm.
  - rewrite (IH _ (λ k, f k ++ ((λ _, tag_preview r n)
                                <$> filter (λ t, t = k)
                                      (index [] (render.nodeTags r) (db.ID n)))))
      by (intros k'; by apply tagNotes_inner).
    csimpl. by rewrite <- app_assoc.
Qed.

Lemma tagNotes_lookup r k :
  render.tagNotes_of r !! k
  = if decide ((render.nodes r ≫= λ n, (λ _, tag_preview r n)
                  <$> filter (λ t, t = k) (index [] (render.nodeTags r) (db.ID n))) = [])
    then None
    else Some (render.nodes r ≫= λ n, (λ _, tag_preview r n)
                 <$> filter (λ t, t = k) (index [] (render.nodeTags r) (db.ID n))).
Proof.
  unfold render.tagNotes_of.
  apply (tagNotes_outer r (render.nodes r) ∅ (λ _, [])).
  intros k'. by rewrite lookup_empty.
Qed.
End more_tag_pages.

Section tag_page_loop.
Context (env : render.Env) (r : render.Renderer).

Lemma tagNotes_is_Some (tag : string) :
  is_Some (render.tagNotes_of r !! tag)
  ↔ ∃ n, n ∈ render.nodes r ∧ tag ∈ index [] (render.nodeTags r) (db.ID n).
Proof.
  rewrite tagNotes_lookup. split.
  - case_decide as Hc; [by intros [? ?]|]. intros _.
    destruct (render.nodes r ≫= _) as [|p ps] eqn:E; [done|].
    assert (p ∈ p :: ps) as Hp by by left. rewrite <- E in Hp.
    apply list_elem_of_bind in Hp as (n & Hp & Hn).
    apply list_elem_of_fmap in Hp as (t & _ & Ht).
    apply list_elem_of_filter in Ht as [-> Ht]. by exists n.
  - intros (n & Hn & Ht). rewrite decide_False; [done|].
    intros Hnil. assert (tag_preview r n ∈ @nil render.NotePreview.t) as Hin.
    { rewrite <- Hnil. apply list_elem_of_bind. exists n. split; [|done].
      apply list_elem_of_fmap. exists tag. split; [done|].
      by apply list_elem_of_filter. }
    by apply elem_of_nil in Hin.
Qed.

Lemma tagNotes_Some (tag : string) (notes : list render.NotePreview.t) :
  render.tagNotes_of r !! tag = Some notes →
  notes = (render.nodes r ≫= λ n, (λ _, tag_preview r n)
             <$> filter (λ t, t = tag) (index [] (render.nodeTags r) (db.ID n))).
Proof. rewrite tagNotes_lookup. case_decide; [done|]. by intros [= <-]. Qed.

Lemma carried_in_allTags (tag : string) :
  (∃ n, n ∈ render.nodes r ∧ tag ∈ index [] (render.nodeTags r) (db.ID n)) →
  tag ∈ render.allTags env r.
Proof.
  intros (n & Hn & Ht). apply (elem_of_allTags env), occurrences_pos.
  unfold index in Ht. destruct (render.nodeTags r !! db.ID n) as [tags|] eqn:E.
  - by exists (db.ID n), tags.
  - by apply elem_of_nil in Ht.
Qed.

(** The loop over the pages returns what the first page that fails
    returns, and nil when there is none. *)
Lemma tag_pages_first_failure (tagsDir : string)
    (page : string → option (render.error env))
    (pages : list (string * list render.NotePreview.t)) :
  (∀ tag notes, (tag, notes) ∈ pages →
     render.renderPage env "tag.html" (render.filepath_Join env tagsDir (tag +:+ ".html"))
       (render.TagPage (render.TagPageData.mk (render.site r) tag notes)) = page tag) →
  (render.tag_pages env r tagsDir pages = None ↔ ∀ tag, tag ∈ pages.*1 → page tag = None)
  ∧ (∀ err, render.tag_pages env r tagsDir pages = Some err
       ↔ ∃ before tag after,
           pages.*1 = before ++ tag :: after
           ∧ (∀ t, t ∈ before → page t = None)
           ∧ page tag = Some err).
Proof.
  induction pages as [|[tag notes] pages IH]; intros Hpage.
  - split; [split; [by intros _ t ?%elem_of_nil | done]|].
    intros err. split; [done|]. intros (before & t & after & E & _). by destruct before.
  - destruct IH as [IHnone IHsome].
    { intros t ns Hin. apply Hpage. by right. }
    cbn [render.tag_pages]. rewrite (Hpage tag notes) by by left.
    destruct (page tag) as [e|] eqn:Et.
    + split.
      * split; [done|]. intros Hall. rewrite <- Et. apply Hall. by left.
      * intros err. split.
        -- intros [= <-]. exists [], tag, pages.*1. split; [done|]. split; [|done].
           by intros t ?%elem_of_nil.
        -- intros ([|t before] & t' & after & E & Hb & Ht); simplify_eq/=;
             [congruence|].
           pose proof (Hb t (list_elem_of_here _ _)). congruence.
    + split.
      * rewrite IHnone. split.
        -- intros Hall t [->|Hin]%elem_of_cons; [done | by apply Hall].
        -- intros Hall t Hin. apply Hall. by right.
      * intros err. rewrite IHsome. split.
        -- intros (before & t & after & E & Hb & Ht).
           exists (tag :: before), t, after. split; [by rewrite fmap_cons, E|].
           split; [|done]. intros t' [->|Hin]%elem_of_cons; [done | by apply Hb].
        -- intros ([|t before] & t' & after & E & Hb & Ht); simplify_eq/=.
           exists before, t', after. split; [done|]. split; [|done].
           intros t'' Hin. apply Hb. by right.
Qed.
End tag_page_loop.

(** X19.  [generateTags] makes the pages of the tags that published nodes
    carry, one page for every such tag, in the order of one range over the
    tags.  A page lists the published nodes that carry its tag, in corpus
    order, a node once for every time the tag stands in its tag list, and
    every such tag is among all tags of the graph page.  When the tags
    directory cannot be made, that error is returned.  Otherwise the loop
    is left at the first page that fails: the result is nil exactly when
    every page renders, and else the error of the first page in that order
    that does not, whatever the pages behind it would do. *)
Theorem generateTags_pages (env : render.Env) (r : render.Renderer) :
  let tagsDir :=
    render.filepath_Join env (config.OutputDir (config.Paths (render.cfg r))) "tags" in
  let notes_of := λ tag,
    render.nodes r ≫= λ n, (λ _, tag_preview r n)
      <$> filter (λ t, t = tag) (index [] (render.nodeTags r) (db.ID n)) in
  let page := λ tag,
    render.renderPage env "tag.html" (render.filepath_Join env tagsDir (tag +:+ ".html"))
      (render.TagPage (render.TagPageData.mk (render.site r) tag (notes_of tag))) in
  let tags := (range_map (render.ro env) (render.tagNotes_of r)).*1 in
  NoDup tags
  ∧ (∀ tag, tag ∈ tags
       ↔ ∃ n, n ∈ render.nodes r ∧ tag ∈ index [] (render.nodeTags r) (db.ID n))
  ∧ (∀ tag, tag ∈ tags → tag ∈ render.allTags env r)
  ∧ (∀ err, render.os_MkdirAll env tagsDir = Some err →
       render.generateTags env r
       = Some (render.errorf env "failed to create tags directory" err))
  ∧ (render.os_MkdirAll env tagsDir = None →
       (render.generateTags env r = None ↔ ∀ tag, tag ∈ tags → page tag = None)
       ∧ (∀ err, render.generateTags env r = Some err
            ↔ ∃ before tag after,
                tags = before ++ tag :: after
                ∧ (∀ t, t ∈ before → page t = None)
                ∧ page tag = Some err)).
Proof.
  intros tagsDir notes_of page tags.
  assert (Hperm : range_map (render.ro env) (render.tagNotes_of r)
                  ≡ₚ map_to_list (render.tagNotes_of r)) by apply range_order_perm.
  assert (Hin : ∀ tag notes, (tag, notes) ∈ range_map (render.ro env) (render.tagNotes_of r)
                             ↔ render.tagNotes_of r !! tag = Some notes).
  { intros tag notes. rewrite Hperm. apply elem_of_map_to_list. }
  assert (Htags : ∀ tag, tag ∈ tags
            ↔ ∃ n, n ∈ render.nodes r ∧ tag ∈ index [] (render.nodeTags r) (db.ID n)).
  { intros tag. rewrite <- tagNotes_is_Some. unfold tags. rewrite list_elem_of_fmap. split.
    - intros ([t notes] & -> & Hp). apply Hin in Hp. by exists notes.
    - intros [notes Hl]. exists (tag, notes). split; [done|]. by apply Hin. }
  split.
  { unfold tags. rewrite Hperm. apply NoDup_fst_map_to_list. }
  split; [done|]. split.
  { intros tag Ht. apply carried_in_allTags. by apply Htags. }
  split.
  { intros err Herr. unfold render.generateTags. fold tagsDir. by rewrite Herr. }
  intros Hdir. unfold render.generateTags. fold tagsDir. rewrite Hdir.
  apply (tag_pages_first_failure env r tagsDir page).
  intros tag notes Hp. apply Hin, tagNotes_Some in Hp. by rewrite Hp.
Qed.

Lemma generateTags_pages_witness :
  let env := tag_a_fails_env in
  let r := sample_renderer config.DefaultConfig
             [mkNode "n" "n.org" "n"; mkNode "m" "m.org" "m"] []
             {[ "n" := ["a"; "b"]; "m" := ["b"; "c"] ]} in
  render.os_MkdirAll env "./dist/tags" = None
  ∧ (range_map (render.ro env) (render.tagNotes_of r)).*1 = ["c"; "a"; "b"]
  ∧ render.generateTags env r = Some "disk full".
Proof.
  intros env r. split; [reflexivity|]. split; [by vm_compute|].
  destruct (generateTags_pages env r) as (_ & _ & _ & _ & Hrun).
  destruct (Hrun eq_refl) as [_ Hsome]. apply Hsome.
  exists ["c"], "a", ["b"]. split; [by vm_compute|]. split; [|by vm_compute].
  intros t Ht. apply list_elem_of_singleton in Ht as ->. by vm_compute.
Defined.

(** X20.  Exclusion does not reach the tag lists of the graph page: a tag is among
    all tags as soon as any entry of the tag map lists it, published or not.
    A tag that only unpublished ids carry is therefore listed there although
    no tag page is generated for it. *)
Theorem allTags_unfiltered (env : render.Env) (r : render.Renderer) (t : string) :
  (t ∈ render.allTags env r ↔ ∃ id tags, render.nodeTags r !! id = Some tags ∧ t ∈ tags)
  ∧ ((∃ id tags, render.nodeTags r !! id = Some tags ∧ t ∈ tags) →
     (∀ n, n ∈ render.nodes r → t ∉ index [] (render.nodeTags r) (db.ID n)) →
     t ∈ render.allTags env r ∧ render.tagNotes_of r !! t = None).
Proof.
  assert (Hall : t ∈ render.allTags env r
            ↔ ∃ id tags, render.nodeTags r !! id = Some tags ∧ t ∈ tags).
  { rewrite elem_of_allTags. apply occurrences_pos. }
  split; [done|]. intros Hocc Hnone. split; [by apply Hall|].
  rewrite tagNotes_lookup. rewrite decide_True; [done|].
  destruct (render.nodes r ≫= _) as [|p ps] eqn:E; [done|].
  assert (p ∈ p :: ps) as Hp by by left. rewrite <- E in Hp.
  apply list_elem_of_bind in Hp as (n & Hp & Hn).
  apply list_elem_of_fmap in Hp as (t' & _ & Ht).
  apply list_elem_of_filter in Ht as [-> Ht]. by destruct (Hnone n Hn).
Qed.

Lemma allTags_unfiltered_witness :
  (∃ id tags, render.nodeTags three_notes_renderer !! id = Some tags ∧ "draft" ∈ tags)
  ∧ "draft" ∈ render.allTags three_notes_env three_notes_renderer
  ∧ render.tagNotes_of three_notes_renderer !! "draft" = None.
Proof.
  assert (Hocc : ∃ id tags, render.nodeTags three_notes_renderer !! id = Some tags
                            ∧ "draft" ∈ tags).
  { exists "C", ["draft"]. split; [by vm_compute | by left]. }
  split; [exact Hocc|].
  apply (proj2 (allTags_unfiltered three_notes_env three_notes_renderer "draft") Hocc).
  intros n Hn. apply list_elem_of_In in Hn. vm_compute in Hn.
  destruct Hn as [<-|[<-|[]]]; vm_compute; by intros H%elem_of_nil.
Defined.

(** X21.  The search index and the global graph describe the same nodes in the same
    order, with the same titles and the same tags. *)
Theorem search_and_graph_agree (r : render.Renderer) :
  (λ e, (search.ID e, search.Title e, search.Tags e))
    <$> search.Entries (render.search_artifact r)
  = (λ gn, (graph.ID gn, graph.Title gn, graph.Tags gn))
    <$> graph.Nodes (render.graph_artifact r).
Proof.
  unfold render.search_artifact, render.graph_artifact.
  rewrite BuildGraph_Nodes. unfold search.BuildIndex. cbn [search.Entries].
  rewrite foldl_snoc_fmap. simpl. by rewrite <- !list_fmap_compose.
Qed.

Lemma NoDup_length_gt_1 (l : list string) (a : string) :
  NoDup l → a ∈ l → (1 < length l)%nat ↔ ∃ b, b ≠ a ∧ b ∈ l.
Proof.
  intros Hnd Ha. split.
  - destruct l as [|x [|y l]]; simpl; [lia | lia |]. intros _.
    apply NoDup_cons in Hnd as [Hx _].
    destruct (decide (x = a)) as [->|Hxa].
    + exists y. split; [|by right; left]. intros ->. apply Hx. by left.
    + exists x. split; [done | by left].
  - intros (b & Hne & Hb). destruct l as [|x [|y l]]; simpl; [| |lia].
    + by apply elem_of_nil in Ha.
    + apply list_elem_of_singleton in Ha, Hb. congruence.
Qed.

(** X22.  The page of a published note shows its mini graph exactly when another
    published note is visited from it.  With a depth that is not negative
    this is another published note within that many hops; with a depth of
    zero or less the mini graph is never shown. *)
Theorem HasGraph_iff (env : render.Env) (r : render.Renderer) (n : db.Node)
    (parsed : parser.ParsedFile) (localJSON : string) :
  n ∈ render.nodes r →
  let depth := config.LocalGraphDepth (config.Display (render.cfg r)) in
  let shown := render.NoteData.HasGraph (render.noteData env r n parsed localJSON) in
  (shown = true
   ↔ ∃ id, id ≠ db.ID n ∧ id ∈ db.ID <$> render.nodes r
           ∧ id ∈ graph.bfs_visited (db.ID n) depth (render.links r))
  ∧ (0 ≤ depth →
     shown = true
     ↔ ∃ id, id ≠ db.ID n ∧ id ∈ db.ID <$> render.nodes r
             ∧ spec.within (render.links r) (db.ID n) depth id)
  ∧ (depth ≤ 0 → shown = false).
Proof.
  intros Hn depth shown.
  assert (Hshown : shown = true
            ↔ ∃ id, id ≠ db.ID n ∧ id ∈ db.ID <$> render.nodes r
                    ∧ id ∈ graph.bfs_visited (db.ID n) depth (render.links r)).
  { unfold shown, render.noteData. cbn [render.NoteData.HasGraph].
    rewrite bool_decide_eq_true. unfold render.note_localGraph. fold depth.
    set (g := graph.LocalGraph _ _ _ _ _ _).
    rewrite <- (length_fmap graph.ID (graph.Nodes g)).
    rewrite (NoDup_length_gt_1 _ (db.ID n)).
    - unfold g. setoid_rewrite elem_of_LocalGraph_node_ids. naive_solver.
    - unfold g. rewrite LocalGraph_node_ids. apply NoDup_filter. unfold range_set.
      rewrite (range_order_perm (render.ro env)). apply NoDup_elements.
    - unfold g. apply elem_of_LocalGraph_node_ids. split; [apply focal_visited|].
      by apply list_elem_of_fmap_2. }
  split; [done|]. split.
  - intros Hd. rewrite Hshown. by setoid_rewrite (bfs_visited_iff_within _ _ _ _ Hd).
  - intros Hd. apply not_true_is_false. rewrite Hshown. intros (id & Hne & _ & Hv).
    rewrite bfs_visited_nonpositive in Hv by done. by apply elem_of_singleton in Hv.
Qed.

Lemma HasGraph_iff_witness :
  let env := sample_env range_ascending merge_sorter in
  let A := mkNode "A" "a.org" "Note A" in
  let r := sample_renderer config.DefaultConfig [A; mkNode "B" "b.org" "Note B"]
             [mkLink "B" "A"] ∅ in
  let parsed := {| parser.Title := "a.org"; parser.Content := "";
                   parser.Links := []; parser.ToC := [] |} in
  A ∈ render.nodes r
  ∧ render.NoteData.HasGraph (render.noteData env r A parsed "{}") = true.
Proof.
  intros env A r parsed.
  assert (HA : A ∈ render.nodes r) by (simpl; by left).
  split; [exact HA|].
  apply (proj1 (HasGraph_iff env r A parsed "{}" HA)).
  exists "B". split; [done|]. split.
  - simpl. right. by left.
  - by vm_compute.
Defined.

(** * Further properties of the configuration loader *)

(** X23.  [Load] returns either a configuration and no error, or an error and no
    configuration, never both and never neither. *)
Theorem Load_config_xor_error (env : config.Env) (path : string) :
  (is_Some (config.Load env path).1 ∧ (config.Load env path).2 = None)
  ∨ ((config.Load env path).1 = None ∧ is_Some (config.Load env path).2).
Proof.
  unfold config.Load.
  destruct (config.os_ReadFile env path) as [err|data].
  - destruct (config.os_IsNotExist env err); simpl; [left | right]; by eauto.
  - destruct (config.yaml_Unmarshal env data config.DefaultConfig); simpl;
      [right | left]; by eauto.
Qed.

(** X24.  When the file is read and decoded, [Load] hands on the decoded site,
    exclusion and display settings untouched and rewrites only the three
    paths; a path that does not begin with a tilde is kept, and so is every
    path when the home directory is unknown.  A file that changes none of
    the defaults gives the default configuration, as a missing file does. *)
Theorem Load_decoded (env : config.Env) (path data : string) (c : config.Config) :
  config.os_ReadFile env path = inr data →
  config.yaml_Unmarshal env data config.DefaultConfig = inr c →
  ∃ c', config.Load env path = (Some c', None)
        ∧ config.Site c' = config.Site c
        ∧ config.Exclude c' = config.Exclude c
        ∧ config.Display c' = config.Display c
        ∧ config.Paths c'
          = {| config.RoamDir := config.expandPath env (config.RoamDir (config.Paths c));
               config.DBPath := config.expandPath env (config.DBPath (config.Paths c));
               config.OutputDir := config.expandPath env (config.OutputDir (config.Paths c)) |}
        ∧ (∀ p, (∀ rest, p ≠ String "~"%char rest) → config.expandPath env p = p)
        ∧ ((∃ err, config.os_UserHomeDir env = inl err) → config.Paths c' = config.Paths c)
        ∧ (c = config.DefaultConfig → c' = config.DefaultConfig).
Proof.
  intros Hread Hyaml. unfold config.Load. rewrite Hread, Hyaml.
  eexists. split; [done|]. simpl.
  assert (Hplain : ∀ p, (∀ rest, p ≠ String "~"%char rest) → config.expandPath env p = p).
  { intros p Hp. unfold config.expandPath. destruct p as [|a rest]; [done|].
    destruct (decide (a = "~"%char)) as [->|Hne]; [by destruct (Hp rest)|].
    destruct a as [[] [] [] [] [] [] [] []]; try done. }
  split; [done|]. split; [done|]. split; [done|]. split; [done|]. split; [exact Hplain|].
  split.
  - intros [err Hhome]. destruct c as [s [p1 p2 p3] e d]. simpl.
    assert (∀ p, config.expandPath env p = p) as Hid.
    { intros p. unfold config.expandPath. rewrite Hhome.
      destruct p as [|a rest]; [done|].
      destruct a as [[] [] [] [] [] [] [] []]; done. }
    by rewrite !Hid.
  - intros ->. reflexivity.
Qed.

Lemma Load_decoded_witness :
  config.os_ReadFile sample_config_env "config.yaml" = inr "site: {}"
  ∧ config.yaml_Unmarshal sample_config_env "site: {}" config.DefaultConfig
    = inr config.DefaultConfig
  ∧ config.Load sample_config_env "config.yaml" = (Some config.DefaultConfig, None).
Proof.
  split; [reflexivity|]. split; [reflexivity|].
  destruct (Load_decoded sample_config_env "config.yaml" "site: {}" config.DefaultConfig
              eq_refl eq_refl) as (c' & Hload & _ & _ & _ & _ & _ & _ & Hdef).
  rewrite Hload. by rewrite (Hdef eq_refl).
Defined.

(** * Properties of the cleaning of database strings *)

Section db_strings.
Import gostrings.

Lemma trim_left_not_head c s x rest : trim_left c s = x :: rest → x ≠ c.
Proof.
  induction s as [|y s IH]; simpl; [done|].
  destruct (Ascii.eqb_spec y c) as [->|Hne]; [done|]. by intros [= <- _].
Qed.

Lemma trim_left_id c s : (∀ x rest, s = x :: rest → x ≠ c) → trim_left c s = s.
Proof.
  destruct s as [|y s]; simpl; [done|]. intros H.
  destruct (Ascii.eqb_spec y c) as [->|Hne]; [|done]. by destruct (H c s).
Qed.

Lemma trim_left_idem c s : trim_left c (trim_left c s) = trim_left c s.
Proof. apply trim_left_id. intros x rest. apply trim_left_not_head. Qed.

(** Dropping leading bytes keeps the last byte of what is left. *)
Lemma trim_left_last c s x rest :
  trim_left c s = rest ++ [x] → ∃ rest', s = rest' ++ [x].
Proof.
  revert rest. induction s as [|y s IH]; intros rest; simpl.
  - by destruct rest.
  - destruct (Ascii.eqb_spec y c) as [->|Hne].
    + intros H. destruct (IH _ H) as [rest' ->]. by exists (c :: rest').
    + intros H. by exists rest.
Qed.

Lemma Trim_no_quote_ends c s :
  (∀ x rest, Trim s c = x :: rest → x ≠ c) ∧ (∀ x rest, Trim s c = rest ++ [x] → x ≠ c).
Proof.
  unfold Trim. split.
  - intros x rest H.
    assert (trim_left c (reverse (trim_left c s)) = reverse rest ++ [x]) as H'.
    { rewrite <- (reverse_involutive (trim_left c _)), H. by rewrite reverse_cons. }
    apply trim_left_last in H' as [rest' H'].
    assert (trim_left c s = x :: reverse rest') as H''.
    { rewrite <- (reverse_involutive (trim_left c s)), H'.
      by rewrite reverse_app. }
    by apply trim_left_not_head in H''.
  - intros x rest H.
    assert (trim_left c (reverse (trim_left c s)) = x :: reverse rest) as H'.
    { rewrite <- (reverse_involutive (trim_left c _)), H. by rewrite reverse_app. }
    by apply trim_left_not_head in H'.
Qed.

Lemma Trim_id c s :
  (∀ x rest, s = x :: rest → x ≠ c) → (∀ x rest, s = rest ++ [x] → x ≠ c) → Trim s c = s.
Proof.
  intros Hhead Hlast. unfold Trim. rewrite (trim_left_id c s) by done.
  rewrite trim_left_id; [apply reverse_involutive|].
  intros x rest Hr. apply (Hlast x (reverse rest)).
  by rewrite <- (reverse_involutive s), Hr, reverse_cons.
Qed.

Lemma Trim_quoted c s :
  (∀ x rest, s = x :: rest → x ≠ c) → (∀ x rest, s = rest ++ [x] → x ≠ c) →
  Trim (c :: s ++ [c]) c = s.
Proof.
  intros Hhead Hlast. unfold Trim. simpl. rewrite Ascii.eqb_refl.
  destruct s as [|y s].
  - simpl. by rewrite Ascii.eqb_refl.
  - assert (trim_left c ((y :: s) ++ [c]) = (y :: s) ++ [c]) as ->.
    { apply trim_left_id. intros x rest [= <- _]. by apply (Hhead y s). }
    rewrite reverse_app. simpl. rewrite Ascii.eqb_refl.
    rewrite trim_left_id; [apply reverse_involutive|].
    intros x rest Hr. apply (Hlast x (reverse rest)).
    by rewrite <- (reverse_involutive (y :: s)), Hr, reverse_cons.
Qed.

Lemma ReplaceAll_other a b new x s :
  x ≠ a → ReplaceAll a b new (x :: s) = x :: ReplaceAll a b new s.
Proof.
  intros Hne. destruct s as [|y s]; simpl; [done|].
  by rewrite (proj2 (Ascii.eqb_neq x a)) by done.
Qed.

Lemma ReplaceAll_pair a b new s :
  ReplaceAll a b new (a :: b :: s) = new ++ ReplaceAll a b new s.
Proof. simpl. by rewrite !Ascii.eqb_refl. Qed.

Lemma ReplaceAll_escape (t : list ascii) :
  ReplaceAll backslash backslash [backslash] (elisp.escape_backslashes t) = t.
Proof.
  unfold elisp.escape_backslashes.
  induction t as [|x t IH]; [done|]. csimpl.
  destruct (Ascii.eqb_spec x backslash) as [->|Hne].
  - change ([backslash; backslash] ++ ?l) with (backslash :: backslash :: l).
    rewrite ReplaceAll_pair, IH. done.
  - change ([x] ++ ?l) with (x :: l). rewrite ReplaceAll_other, IH; done.
Qed.

Lemma escape_no_quote (t : list ascii) x :
  quote ∉ t → x ∈ elisp.escape_backslashes t → x ≠ quote.
Proof.
  intros Hq Hx. apply list_elem_of_bind in Hx as (y & Hx & Hy).
  assert (x = y) as ->.
  { destruct (Ascii.eqb y backslash); set_solver. }
  by intros ->.
Qed.
End db_strings.

(** X25.  [trimQuotes] leaves a string that neither begins nor ends with a double
    quote; applying it again changes nothing, and a string without a double
    quote at either end comes back unchanged from between quotes. *)
Theorem trimQuotes_properties (s : string) :
  let out := list_ascii_of_string (db.trimQuotes s) in
  (∀ x rest, out = x :: rest → x ≠ gostrings.quote)
  ∧ (∀ x rest, out = rest ++ [x] → x ≠ gostrings.quote)
  ∧ db.trimQuotes (db.trimQuotes s) = db.trimQuotes s
  ∧ ((∀ x rest, list_ascii_of_string s = x :: rest → x ≠ gostrings.quote) →
     (∀ x rest, list_ascii_of_string s = rest ++ [x] → x ≠ gostrings.quote) →
     db.trimQuotes
       (string_of_list_ascii (gostrings.quote :: list_ascii_of_string s ++ [gostrings.quote]))
     = s).
Proof.
  intros out. unfold out, db.trimQuotes.
  rewrite !list_ascii_of_string_of_list_ascii.
  destruct (Trim_no_quote_ends gostrings.quote (list_ascii_of_string s)) as [Hh Hl].
  split; [done|]. split; [done|]. split.
  - by rewrite Trim_id.
  - intros Hhead Hlast. rewrite Trim_quoted by done. apply string_of_list_ascii_of_string.
Qed.

Lemma trimQuotes_properties_witness :
  (∀ x rest, list_ascii_of_string "abc" = x :: rest → x ≠ gostrings.quote)
  ∧ (∀ x rest, list_ascii_of_string "abc" = rest ++ [x] → x ≠ gostrings.quote)
  ∧ db.trimQuotes
      (string_of_list_ascii
         (gostrings.quote :: list_ascii_of_string "abc" ++ [gostrings.quote]))
    = "abc".
Proof.
  assert (Hh : ∀ x rest, list_ascii_of_string "abc" = x :: rest → x ≠ gostrings.quote).
  { intros x rest [= <- _]. by vm_compute. }
  assert (Hl : ∀ x rest, list_ascii_of_string "abc" = rest ++ [x] → x ≠ gostrings.quote).
  { intros x rest H. simpl in H.
    destruct rest as [|a [|b [|c [|d rest]]]]; simplify_eq/=. by vm_compute. }
  split; [exact Hh|]. split; [exact Hl|].
  exact (proj2 (proj2 (proj2 (trimQuotes_properties "abc"))) Hh Hl).
Defined.

(** X26.  [cleanTitle] reads back a title the way the database wrote it: for a
    title without a double quote, stored between quotes with its backslashes
    doubled, it returns the title. *)
Theorem cleanTitle_printed (t : list ascii) :
  gostrings.quote ∉ t →
  db.cleanTitle (elisp.printed t) = string_of_list_ascii t.
Proof.
  intros Hq. unfold db.cleanTitle, db.trimQuotes, elisp.printed.
  rewrite !list_ascii_of_string_of_list_ascii.
  rewrite Trim_quoted.
  - by rewrite ReplaceAll_escape.
  - intros x rest Hx. apply (escape_no_quote t x Hq). rewrite Hx. by left.
  - intros x rest Hx. apply (escape_no_quote t x Hq). rewrite Hx.
    apply elem_of_app. right. by left.
Qed.

Lemma cleanTitle_printed_witness :
  let t := list_ascii_of_string "$" ++ [gostrings.backslash] ++ list_ascii_of_string "pi_0$" in
  (gostrings.quote ∉ t)
  ∧ db.cleanTitle (elisp.printed t) = string_of_list_ascii t.
Proof.
  intros t.
  assert (Hq : gostrings.quote ∉ t).
  { intros H. apply list_elem_of_In in H. vm_compute in H. intuition discriminate. }
  split; [exact Hq|]. exact (cleanTitle_printed t Hq).
Defined.
